(** * Abratronix trending fetcher: scoring, deduplication and ranking

    A shallow embedding of the core of [fetcher/fetch.py]:
    [compute_traction_score], [parse_date], [deduplicate] and the ranking and
    statistics steps of [main].

    Python floats are idealised as real numbers ([R]): [math.log1p] and
    [math.exp] are the real logarithm and exponential on the domain where the
    Python functions return, and raise the Python exception outside of it;
    [round(x, 2)] is rounding to the nearest hundredth, ties to even.  NaN and
    infinities have no counterpart in this model. *)

From Stdlib Require Import Reals Lra Lia ZArith Ascii String.
From stdpp Require Import base gmap sets list strings sorting pretty.

Open Scope R_scope.

(** ** Exceptions *)

Inductive exn : Type :=
  | ValueError
  | ZeroDivisionError
  | OverflowError.

Inductive result (A : Type) : Type :=
  | Ok (a : A)
  | Raise (e : exn).

Arguments Ok {A} a.
Arguments Raise {A} e.

#[global] Instance result_ret : MRet result := fun _ a => Ok a.

#[global] Instance result_bind : MBind result := fun _ _ k r =>
  match r with
  | Ok a => k a
  | Raise e => Raise e
  end.

Definition returns {A : Type} (r : result A) : Prop := exists a, r = Ok a.

(** Both calls return, and the first score is at most the second. *)
Definition result_le (r r' : result R) : Prop :=
  exists s s', r = Ok s /\ r' = Ok s' /\ s <= s'.

(** ** The numeric built-ins the scorer calls *)

Module Py.

(** [min(a, b)]: the first argument unless the second is smaller. *)
Definition min (a b : R) : R := if Rlt_dec b a then b else a.

(** [max(a, b)]: the first argument unless the second is greater. *)
Definition max (a b : R) : R := if Rlt_dec a b then b else a.

(** [math.log1p(x)]: "math domain error" for [x <= -1]. *)
Definition log1p (x : R) : result R :=
  if Rle_dec x (-1) then Raise ValueError else Ok (ln (1 + x)).

(** The largest finite double. *)
Definition DBL_MAX : R := (2 - / 2 ^ 52) * 2 ^ 1023.

(** [math.exp(x)]: "math range error" when the result exceeds the largest
    finite double. *)
Definition exp (x : R) : result R :=
  if Rlt_dec DBL_MAX (Rtrigo_def.exp x) then Raise OverflowError
  else Ok (Rtrigo_def.exp x).

(** [a / b] on floats. *)
Definition div (a b : R) : result R :=
  if Req_dec_T b 0 then Raise ZeroDivisionError else Ok (a / b).

(** Nearest integer, ties to the even neighbour. *)
Definition round_half_even (x : R) : Z :=
  let f := Zfloor x in
  let r := x - IZR f in
  if Rlt_dec r (1 / 2) then f
  else if Rlt_dec (1 / 2) r then (f + 1)%Z
  else if Z.even f then f else (f + 1)%Z.

(** [round(x, ndigits)]. *)
Definition round (x : R) (ndigits : nat) : R :=
  IZR (round_half_even (x * 10 ^ ndigits)) / 10 ^ ndigits.

End Py.

(** ** Configuration *)

Definition MAX_TOTAL_ITEMS : nat := 200.

Definition SOURCE_WEIGHTS : gmap string R :=
  <["hackernews" := 1.0]> (
  <["reddit" := 0.85]> (
  <["github" := 0.75]> (
  <["youtube" := 0.65]> (
  <["news" := 0.55]> ∅)))).

(** [SOURCE_WEIGHTS.get(source, 0.5)] *)
Definition source_weight (source : string) : R :=
  default 0.5 (SOURCE_WEIGHTS !! source).

(** ** Traction scoring *)

Definition compute_traction_score
    (source : string) (engagement comments hours_old : R)
    (engagement_cap comments_cap : R) : result R :=
  eng_num ← Py.log1p (Py.min engagement engagement_cap);
  eng_den ← Py.log1p engagement_cap;
  eng_norm ← Py.div eng_num eng_den;
  cmt_num ← Py.log1p (Py.min comments comments_cap);
  cmt_den ← Py.log1p comments_cap;
  cmt_norm ← Py.div cmt_num cmt_den;
  let half_life := 12.0 in
  recency ← Py.exp (-0.693 * Py.max hours_old 0 / half_life);
  let src_w := source_weight source in
  let score :=
    (eng_norm * 0.40 + cmt_norm * 0.20 + recency * 0.25 + src_w * 0.15) * 100 in
  Ok (Py.round score 2).

(** The default caps of the signature: [engagement_cap=5000],
    [comments_cap=500]. *)
Definition default_engagement_cap : R := 5000.
Definition default_comments_cap : R := 500.

Definition compute_traction_score_default
    (source : string) (engagement comments hours_old : R) : result R :=
  compute_traction_score source engagement comments hours_old
    default_engagement_cap default_comments_cap.

(** The value the scorer rounds, as one real expression. *)
Definition norm (x cap : R) : R := ln (1 + Py.min x cap) / ln (1 + cap).

Definition recency (hours_old : R) : R :=
  Rtrigo_def.exp (-0.693 * Py.max hours_old 0 / 12.0).

Definition raw_score
    (source : string) (engagement comments hours_old : R)
    (engagement_cap comments_cap : R) : R :=
  (norm engagement engagement_cap * 0.40 + norm comments comments_cap * 0.20
   + recency hours_old * 0.25 + source_weight source * 0.15) * 100.

(** ** Trending items

    An item is the dict every fetcher builds.  [deduplicate] and [main] read
    the keys ["url"], ["id"] and ["traction_score"] with [dict.get], so these
    three may be absent; the ["meta"] dict is passed through untouched and is
    left out. *)

Record item : Type := mk_item {
  item_id : option string;
  item_source : string;
  item_type : string;
  item_title : string;
  item_summary : string;
  item_url : option string;
  item_author : string;
  item_date : string;
  item_traction_score : option R;
}.

(** [item.get("url", "")] and [item.get("id", "")] *)
Definition get_url (it : item) : string := default "" (item_url it).
Definition get_id (it : item) : string := default "" (item_id it).

(** [x.get("traction_score", 0)] *)
Definition get_score (it : item) : R := default 0 (item_traction_score it).

(** ** Deduplication *)

Record dedup_state : Type := mk_dedup_state {
  seen_urls : gset string;
  seen_ids : gset string;
  dedup_result : list item;
}.

Definition dedup_init : dedup_state :=
  {| seen_urls := ∅; seen_ids := ∅; dedup_result := [] |}.

(** One iteration of the loop body. *)
Definition dedup_step (st : dedup_state) (it : item) : dedup_state :=
  let url := get_url it in
  let item_id := get_id it in
  if decide (url ∈ seen_urls st ∨ item_id ∈ seen_ids st) then st
  else {| seen_urls := seen_urls st ∪ {[url]};
          seen_ids := seen_ids st ∪ {[item_id]};
          dedup_result := dedup_result st ++ [it] |}.

Definition dedup_loop (st : dedup_state) (items : list item) : dedup_state :=
  foldl dedup_step st items.

Definition deduplicate (items : list item) : list item :=
  dedup_result (dedup_loop dedup_init items).

(** Two items collide when they agree on the url or on the id. *)
Definition collide (x y : item) : Prop :=
  get_url x = get_url y ∨ get_id x = get_id y.

#[global] Instance collide_dec (x y : item) : Decision (collide x y).
Proof. unfold collide. apply _. Defined.

(** The loop invariant: the seen-sets hold the urls and the ids of the items
    kept so far, and no url and no id is kept twice. *)
Definition dedup_inv (st : dedup_state) : Prop :=
  (forall u, u ∈ seen_urls st <-> u ∈ get_url <$> dedup_result st) /\
  (forall i, i ∈ seen_ids st <-> i ∈ get_id <$> dedup_result st) /\
  NoDup (get_url <$> dedup_result st) /\
  NoDup (get_id <$> dedup_result st).

(** Sample items: only the id, the url and the score vary. *)
Definition sample_item (id : string) (url : option string) (score : R) : item :=
  {| item_id := Some id;
     item_source := "news";
     item_type := "article";
     item_title := "";
     item_summary := "";
     item_url := url;
     item_author := "";
     item_date := "";
     item_traction_score := Some score |}.

(** ** Ranking

    [list.sort] and [sorted] are stable and compare with [<] only.  They are
    modelled by stable insertion: an element is placed in front of the first
    element of the already sorted tail that must come after it.  With
    [reverse=True] equal keys keep their original order as well. *)

#[global] Instance Rlt_decision (x y : R) : Decision (x < y) := Rlt_dec x y.
#[global] Instance Rle_decision (x y : R) : Decision (x <= y) := Rle_dec x y.
#[global] Instance R_eq_decision : EqDecision R := Req_dec_T.

Section StableSort.
Context {A : Type}.
(** [after x y]: [y] has to be moved in front of [x]. *)
Variable after : A -> A -> bool.

Fixpoint insert_sorted (x : A) (l : list A) : list A :=
  match l with
  | [] => [x]
  | y :: l' => if after x y then y :: insert_sorted x l' else x :: l
  end.

Definition stable_sort (l : list A) : list A := foldr insert_sorted [] l.

(** [in_order x y]: [x] may stay in front of [y]. *)
Definition in_order : relation A := fun x y => after x y = false.
End StableSort.

(** [items.sort(key=lambda x: x.get("traction_score", 0), reverse=True)] *)
Definition sort_by_score_desc (items : list item) : list item :=
  stable_sort (fun x y => bool_decide (get_score x < get_score y)) items.

(** [sorted(scores)] *)
Definition sorted (scores : list R) : list R :=
  stable_sort (fun x y => bool_decide (y < x)) scores.

(** The ranking step of [main]: sort, then [all_items[:MAX_TOTAL_ITEMS]]. *)
Definition rank (items : list item) : list item :=
  take MAX_TOTAL_ITEMS (sort_by_score_desc items).

(** What the slice throws away. *)
Definition rank_discarded (items : list item) : list item :=
  drop MAX_TOTAL_ITEMS (sort_by_score_desc items).

(** ** Score statistics *)

(** [int(x)] on a float: truncation towards zero. *)
Definition py_int (x : R) : Z := if decide (0 <= x) then Zfloor x else Zceil x.

(** [l[k]]: a negative index counts from the end; [None] stands for
    [IndexError]. *)
Definition py_index (l : list R) (k : Z) : option R :=
  if decide (0 <= k)%Z then l !! Z.to_nat k
  else if decide (- Z.of_nat (length l) <= k)%Z
       then l !! Z.to_nat (Z.of_nat (length l) + k)
       else None.

(** [max(scores)] on a non-empty list keeps the first greatest element. *)
Definition py_max_list (x : R) (l : list R) : R := foldl Py.max x l.

Record traction_stats : Type := mk_traction_stats {
  max_score : R;
  p90_score : R;
  p75_score : R;
}.

(** [sorted(scores)[int(len(scores) * p)] if scores else 0] *)
Definition percentile (scores : list R) (p : R) : option R :=
  match scores with
  | [] => Some 0
  | _ :: _ => py_index (sorted scores) (py_int (INR (length scores) * p))
  end.

Definition compute_stats (all_items : list item) : option traction_stats :=
  let scores := get_score <$> all_items in
  let max_score :=
    match scores with
    | [] => 0
    | s :: rest => py_max_list s rest
    end in
  p75 ← percentile scores 0.75;
  p90 ← percentile scores 0.90;
  Some {| max_score := max_score; p90_score := p90; p75_score := p75 |}.

(** The part of [main] between fetching and writing the file. *)
Definition main_core (all_items : list item)
    : list item * option traction_stats :=
  let all_items := deduplicate all_items in
  let all_items := rank all_items in
  (all_items, compute_stats all_items).

(** ** Per-source counts and the output document *)

(** The body of the counting loop: [sources[s] = sources.get(s, 0) + 1]. *)
Definition count_source (sources : gmap string nat) (it : item)
    : gmap string nat :=
  let s := item_source it in
  <[s := (default 0 (sources !! s) + 1)%nat]> sources.

Definition count_sources (all_items : list item) : gmap string nat :=
  foldl count_source ∅ all_items.

(** The sum of all counts of a [sources] dict. *)
Definition counts_total (sources : gmap string nat) : nat :=
  map_fold (fun _ n acc => (n + acc)%nat) 0%nat sources.

(** The [output] dict of [main]; ["generated_at"] is the clock and is left
    out. *)
Record output : Type := mk_output {
  out_total_items : nat;
  out_sources : gmap string nat;
  out_traction_stats : traction_stats;
  out_items : list item;
}.

(** [main] from the merged fetch results to the document it writes; [None]
    stands for an [IndexError] of the percentile lookup. *)
Definition main_output (all_items : list item) : option output :=
  let all_items := deduplicate all_items in
  let all_items := rank all_items in
  let sources := count_sources all_items in
  stats ← compute_stats all_items;
  Some {| out_total_items := length all_items;
          out_sources := sources;
          out_traction_stats := stats;
          out_items := all_items |}.

(** ** Date parsing

    [datetime.strptime], [str.strip], [datetime.isoformat], [hours_ago],
    [strip_html] and [make_id] belong to the runtime or to the glue code; the
    core only relies on their interface.  The wall clock read by [now_iso()]
    is passed in as the string that call returns. *)

Class Runtime : Type := {
  datetime : Type;
  (** [datetime.strptime(s, fmt)] *)
  strptime : string -> string -> result datetime;
  (** [dt.tzinfo is None] *)
  tzinfo_is_None : datetime -> bool;
  (** [dt.replace(tzinfo=timezone.utc)] *)
  replace_tzinfo_utc : datetime -> datetime;
  (** [dt.isoformat()] *)
  isoformat : datetime -> string;
  (** [s.strip()] *)
  str_strip : string -> string;
  (** [hours_ago(iso_date)]: falls back to [24.0] inside, never raises *)
  hours_ago : string -> R;
  strip_html : string -> string;
  make_id : string -> string -> string;
}.

(** On a [str] argument [strptime] either returns or raises [ValueError]. *)
Class RuntimeLaws (L : Runtime) : Prop := {
  strptime_raises_ValueError :
    forall s fmt e, strptime s fmt = Raise e -> e = ValueError;
}.

Definition DATE_FORMATS : list string :=
  [ "%a, %d %b %Y %H:%M:%S %z";
    "%Y-%m-%dT%H:%M:%S%z";
    "%Y-%m-%dT%H:%M:%SZ";
    "%Y-%m-%dT%H:%M:%S.%f%z";
    "%Y-%m-%d %H:%M:%S";
    "%Y%m%d" ].

(** The body of the [try] for one format. *)
Definition try_format {L : Runtime} (date_str fmt : string) : result string :=
  dt ← strptime (str_strip date_str) fmt;
  let dt := if tzinfo_is_None dt then replace_tzinfo_utc dt else dt in
  Ok (isoformat dt).

(** The [for] loop: [except ValueError: continue] catches [ValueError] only;
    after the last format comes [return now_iso()]. *)
Fixpoint parse_date_loop {L : Runtime}
    (now date_str : string) (fmts : list string) : result string :=
  match fmts with
  | [] => Ok now
  | fmt :: rest =>
      match try_format date_str fmt with
      | Ok iso => Ok iso
      | Raise ValueError => parse_date_loop now date_str rest
      | Raise e => Raise e
      end
  end.

Definition parse_date {L : Runtime} (now date_str : string) : result string :=
  if decide (date_str = "") then Ok now
  else parse_date_loop now date_str DATE_FORMATS.

(** A date string is unparseable when every format is rejected. *)
Definition unparseable {L : Runtime} (date_str : string) : Prop :=
  Forall (fun fmt => strptime (str_strip date_str) fmt = Raise ValueError)
         DATE_FORMATS.

(** The fields [fetch_rss] reads from one feed entry, defaults applied. *)
Record rss_entry : Type := mk_rss_entry {
  entry_title : string;
  entry_summary : string;
  entry_link : string;
  entry_published : string;
  entry_author : string;
}.

(** The loop body of [fetch_rss]: the item appended for one entry. *)
Definition rss_item {L : Runtime} (now : string) (entry : rss_entry)
    : result item :=
  let title := entry_title entry in
  let summary := strip_html (entry_summary entry) in
  let link := entry_link entry in
  let published := entry_published entry in
  iso_date ← parse_date now published;
  let age_h := hours_ago iso_date in
  traction ← compute_traction_score_default "news" 0 0 age_h;
  Ok {| item_id := Some (make_id "news" link);
        item_source := "news";
        item_type := "article";
        item_title := title;
        item_summary := summary;
        item_url := Some link;
        item_author := entry_author entry;
        item_date := iso_date;
        item_traction_score := Some traction |}.

(** A small runtime, used to exercise the statements below: it accepts
    eight digits under the format ["%Y%m%d"] and nothing else.  The parsed
    value is the digit string with a flag telling whether a time zone is
    attached. *)
Definition is_digit (a : ascii) : bool :=
  (48 <=? nat_of_ascii a)%nat && (nat_of_ascii a <=? 57)%nat.

Fixpoint all_digits (s : string) : bool :=
  match s with
  | EmptyString => true
  | String a s' => is_digit a && all_digits s'
  end.

Definition compact_runtime : Runtime :=
  {| datetime := string * bool;
     strptime := fun s fmt =>
       if decide (fmt = "%Y%m%d") then
         if all_digits s && (String.length s =? 8)%nat then Ok (s, false)
         else Raise ValueError
       else Raise ValueError;
     tzinfo_is_None := fun dt => negb (snd dt);
     replace_tzinfo_utc := fun dt => (fst dt, true);
     isoformat := fun dt =>
       String.append (substring 0 4 (fst dt)) (
       String.append "-" (
       String.append (substring 4 2 (fst dt)) (
       String.append "-" (
       String.append (substring 6 2 (fst dt)) (
       String.append "T00:00:00" (if snd dt then "+00:00" else ""))))));
     str_strip := fun s => s;
     hours_ago := fun _ => 24.0;
     strip_html := fun s => s;
     make_id := fun source key => String.append source (String.append ":" key) |}.

(** ** Stripping HTML

    [strip_html] works on Python strings, sequences of Unicode characters.
    The character type, the three characters the code names, the test
    [str.split()] separates on, and [html.unescape] are an interface. *)

Class Charset : Type := {
  char : Type;
  char_eq_dec :: EqDecision char;
  (** ['<'], ['>'] and [' '] *)
  char_lt : char;
  char_gt : char;
  char_space : char;
  (** whitespace in the sense of [str.split()] *)
  isspace : char -> bool;
  (** [html.unescape(text)] *)
  unescape : list char -> list char;
}.

Class CharsetLaws (C : Charset) : Prop := {
  space_isspace : isspace char_space = true;
  lt_not_space : isspace char_lt = false;
  gt_not_space : isspace char_gt = false;
  lt_ne_gt : char_lt <> char_gt;
}.

Module Html.

(** [re.sub(r"<[^>]+>", " ", text)].  A match starts at a ['<'], runs over
    at least one character other than ['>'] and ends at the first ['>'].
    [sub_tags] scans outside of a candidate; [open_tag body] scans after a
    ['<'] with [body] read since.  A ['<'] directly followed by ['>'], or
    with no ['>'] after it, starts no match and stays. *)
Fixpoint sub_tags {C : Charset} (text : list char) : list char :=
  match text with
  | [] => []
  | c :: rest =>
      if decide (c = char_lt) then open_tag [] rest else c :: sub_tags rest
  end
with open_tag {C : Charset} (body text : list char) : list char :=
  match text with
  | [] => char_lt :: body
  | c :: rest =>
      if decide (c = char_gt) then
        match body with
        | [] => char_lt :: char_gt :: sub_tags rest
        | _ :: _ => char_space :: sub_tags rest
        end
      else open_tag (body ++ [c]) rest
  end.

(** [text.split()]: the maximal runs of non-whitespace characters; [word]
    is the run being read. *)
Fixpoint split_from {C : Charset} (word text : list char)
    : list (list char) :=
  match text with
  | [] => match word with [] => [] | _ :: _ => [word] end
  | c :: rest =>
      if isspace c then
        match word with
        | [] => split_from [] rest
        | _ :: _ => word :: split_from [] rest
        end
      else split_from (word ++ [c]) rest
  end.

Definition split {C : Charset} (text : list char) : list (list char) :=
  split_from [] text.

(** [sep.join(words)] *)
Fixpoint join {C : Charset} (sep : list char) (words : list (list char))
    : list char :=
  match words with
  | [] => []
  | w :: ws =>
      match ws with
      | [] => w
      | _ :: _ => w ++ sep ++ join sep ws
      end
  end.

(** [text[:k]]: a negative [k] counts from the end. *)
Definition slice_to {A : Type} (l : list A) (k : Z) : list A :=
  if decide (0 <= k)%Z then take (Z.to_nat k) l
  else take (Z.to_nat (Z.of_nat (length l) + k)) l.

Definition strip_html {C : Charset} (text : list char) (max_len : Z)
    : list char :=
  match text with
  | [] => []
  | _ :: _ =>
      let text := unescape text in
      let text := sub_tags text in
      let text := join [char_space] (split text) in
      slice_to text max_len
  end.

Definition default_max_len : Z := 300.

(** A text contains a tag when the pattern [<[^>]+>] matches somewhere. *)
Definition has_tag {C : Charset} (text : list char) : Prop :=
  exists pre body post,
    text = pre ++ char_lt :: body ++ char_gt :: post /\
    body <> [] /\ char_gt ∉ body.

(** Every ['<'] is directly followed by ['>'] or has no ['>'] after it. *)
Fixpoint tag_free {C : Charset} (text : list char) : Prop :=
  match text with
  | [] => True
  | c :: rest =>
      (c = char_lt -> head rest = Some char_gt \/ char_gt ∉ rest) /\
      tag_free rest
  end.

(** The whitespace pass in one scan, for the proofs: [Start] before the
    first word, [InWord] inside a word, [Gap] after a word. *)
Inductive scan_state : Type := Start | InWord | Gap.

Fixpoint collapse {C : Charset} (st : scan_state) (text : list char)
    : list char :=
  match text with
  | [] => []
  | c :: rest =>
      if isspace c then
        match st with
        | Start => collapse Start rest
        | InWord | Gap => collapse Gap rest
        end
      else
        match st with
        | Start | InWord => c :: collapse InWord rest
        | Gap => char_space :: c :: collapse InWord rest
        end
  end.

(** Whitespace is single spaces only; [prev] tells whether a whitespace
    character (or the start of the text) comes right before. *)
Fixpoint spaced {C : Charset} (prev : bool) (text : list char) : Prop :=
  match text with
  | [] => True
  | c :: rest =>
      (isspace c = true -> c = char_space /\ prev = false) /\
      spaced (isspace c) rest
  end.

End Html.

(** ASCII text: whitespace is tab, line feed, vertical tab, form feed,
    carriage return, the four separators 28 to 31 and the space; this
    instance has no entities to decode. *)
Definition ascii_isspace (a : ascii) : bool :=
  let n := nat_of_ascii a in
  ((9 <=? n)%nat && (n <=? 13)%nat) || ((28 <=? n)%nat && (n <=? 32)%nat).

Definition ascii_charset : Charset :=
  {| char := ascii;
     char_eq_dec := ascii_dec;
     char_lt := "<"%char;
     char_gt := ">"%char;
     char_space := " "%char;
     isspace := ascii_isspace;
     unescape := fun text => text |}.

(** ** Items built from Hacker News stories and Reddit posts

    The two loops read a few fields of the JSON object they fetched, with
    the defaults of [dict.get] applied, and turn a Unix time into a date
    with [datetime.fromtimestamp], which raises outside of the range the
    platform supports. *)

Class Timestamps : Type := {
  (** [datetime.fromtimestamp(t, tz=timezone.utc).isoformat()] *)
  fromtimestamp_iso : R -> result string;
  (** [str(n)] for an integer *)
  str_int : Z -> string;
}.

(** [x or alt] for a string that may be missing: [None] and the empty
    string are false. *)
Definition str_or (x : option string) (alt : string) : string :=
  match x with
  | Some EmptyString | None => alt
  | Some s => s
  end.

(** [fromtimestamp(t).isoformat() if t else now_iso()] *)
Definition timestamp_date {T : Timestamps} (now : string) (t : R)
    : result string :=
  if decide (t = 0) then Ok now else fromtimestamp_iso t.



Record hn_story : Type := mk_hn_story {
  story_type : option string;
  story_title : string;
  story_url : option string;
  story_score : R;
  story_descendants : R;
  story_by : string;
  story_time : R;
  story_text : string;
}.

(** The loop body of [fetch_hackernews] after the story was fetched; the
    argument is [None] for an empty response. *)
Definition hn_item {L : Runtime} {T : Timestamps}
    (now : string) (story_id : Z) (story : option hn_story)
    : result (option item) :=
  match story with
  | None => Ok None
  | Some story =>
      if decide (story_type story ∈ [Some "story"; Some "ask"; Some "show"])
      then
        let title := story_title story in
        let url :=
          str_or (story_url story)
            (String.append "https://news.ycombinator.com/item?id="
                           (str_int story_id)) in
        let score := story_score story in
        let n_comments := story_descendants story in
        let by_ := story_by story in
        let unix_time := story_time story in
        iso_date ← timestamp_date now unix_time;
        let age_h := hours_ago iso_date in
        traction ←
          compute_traction_score_default "hackernews" score n_comments age_h;
        Ok (Some {| item_id := Some (make_id "hackernews" (str_int story_id));
                    item_source := "hackernews";
                    item_type := "story";
                    item_title := title;
                    item_summary := strip_html (story_text story);
                    item_url := Some url;
                    item_author := by_;
                    item_date := iso_date;
                    item_traction_score := Some traction |})
      else Ok None
  end.

(** Timestamps for the examples: only the seconds of the year 1970 are
    accepted, and the date keeps the year alone. *)
Definition small_timestamps : Timestamps :=
  {| fromtimestamp_iso := fun t =>
       if decide (0 <= t <= 31536000) then Ok "1970" else Raise OverflowError;
     str_int := pretty |}.

(** * Properties *)

(** ** Rounding *)

Section Rounding.

Lemma round_half_even_bounds (x : R) :
  IZR (Zfloor x) <= IZR (Py.round_half_even x) <= IZR (Zfloor x) + 1.
Proof.
  unfold Py.round_half_even.
  repeat destruct (Rlt_dec _ _); try destruct (Z.even _);
    rewrite ?plus_IZR; simpl; lra.
Qed.

Lemma round_half_even_IZR (z : Z) : Py.round_half_even (IZR z) = z.
Proof.
  unfold Py.round_half_even. rewrite ZfloorZ.
  destruct (Rlt_dec _ _) as [|Hn]; [done|]. exfalso. apply Hn. lra.
Qed.

Lemma round_half_even_mono (x y : R) :
  x <= y -> (Py.round_half_even x <= Py.round_half_even y)%Z.
Proof.
  intros Hxy.
  pose proof (Zfloor_le _ _ Hxy) as Hfl.
  pose proof (Zfloor_bound x) as Hx. pose proof (Zfloor_bound y) as Hy.
  destruct (Z.eq_dec (Zfloor x) (Zfloor y)) as [Heq|Hne].
  - unfold Py.round_half_even. rewrite Heq in *.
    repeat destruct (Rlt_dec _ _); try destruct (Z.even _); try lia; lra.
  - assert (Zfloor x + 1 <= Zfloor y)%Z as Hstep by lia.
    apply le_IZR.
    pose proof (round_half_even_bounds x) as Bx.
    pose proof (round_half_even_bounds y) as By.
    apply IZR_le in Hstep. rewrite plus_IZR in Hstep. simpl in Hstep. lra.
Qed.

Lemma pow10_pos (n : nat) : 0 < 10 ^ n.
Proof. apply pow_lt. lra. Qed.

Lemma round_mono (n : nat) (x y : R) : x <= y -> Py.round x n <= Py.round y n.
Proof.
  intros Hxy. unfold Py.round.
  pose proof (pow10_pos n) as Hp.
  apply Rmult_le_compat_r; [left; by apply Rinv_0_lt_compat|].
  apply IZR_le, round_half_even_mono. nra.
Qed.

Lemma round_IZR_div (n : nat) (z : Z) :
  Py.round (IZR z / 10 ^ n) n = IZR z / 10 ^ n.
Proof.
  unfold Py.round. pose proof (pow10_pos n) as Hp.
  replace (IZR z / 10 ^ n * 10 ^ n) with (IZR z) by (field; lra).
  by rewrite round_half_even_IZR.
Qed.

Lemma round2_0 : Py.round 0 2 = 0.
Proof.
  replace 0 with (IZR 0 / 10 ^ 2) at 1 by (simpl; lra).
  rewrite round_IZR_div. simpl. lra.
Qed.

Lemma round2_100 : Py.round 100 2 = 100.
Proof.
  replace 100 with (IZR 10000 / 10 ^ 2) at 1 by (simpl; lra).
  rewrite round_IZR_div. simpl. lra.
Qed.

End Rounding.

(** ** The scorer's ingredients *)

Section Signals.

Lemma py_min_le_l (a b : R) : Py.min a b <= a.
Proof. unfold Py.min. destruct (Rlt_dec b a); lra. Qed.

Lemma py_min_le_r (a b : R) : Py.min a b <= b.
Proof. unfold Py.min. destruct (Rlt_dec b a); lra. Qed.

Lemma py_min_glb (a b c : R) : c <= a -> c <= b -> c <= Py.min a b.
Proof. unfold Py.min. destruct (Rlt_dec b a); lra. Qed.

Lemma py_min_glb_lt (a b c : R) : c < a -> c < b -> c < Py.min a b.
Proof. unfold Py.min. destruct (Rlt_dec b a); lra. Qed.

Lemma py_min_mono (a a' b : R) : a <= a' -> Py.min a b <= Py.min a' b.
Proof. unfold Py.min. repeat destruct (Rlt_dec _ _); lra. Qed.

Lemma py_min_saturate (a b : R) : b <= a -> Py.min a b = b.
Proof. unfold Py.min. destruct (Rlt_dec b a); lra. Qed.

Lemma py_max_0_nonneg (h : R) : 0 <= Py.max h 0.
Proof. unfold Py.max. destruct (Rlt_dec h 0); lra. Qed.

Lemma py_max_0_mono (h h' : R) : h <= h' -> Py.max h 0 <= Py.max h' 0.
Proof. unfold Py.max. repeat destruct (Rlt_dec _ _); lra. Qed.

Lemma ln_le (x y : R) : 0 < x -> x <= y -> ln x <= ln y.
Proof.
  intros Hx [Hlt| ->]; [|lra]. left. by apply ln_increasing.
Qed.

Lemma ln1p_cap_pos (cap : R) : 0 < cap -> 0 < ln (1 + cap).
Proof. intros. rewrite <- ln_1. apply ln_increasing; lra. Qed.

Lemma norm_mono (x x' cap : R) :
  -1 < x -> x <= x' -> 0 < cap -> norm x cap <= norm x' cap.
Proof.
  intros Hx Hle Hcap. unfold norm.
  apply Rmult_le_compat_r.
  - left. apply Rinv_0_lt_compat. by apply ln1p_cap_pos.
  - pose proof (py_min_mono x x' cap Hle).
    pose proof (py_min_glb_lt x cap (-1) Hx ltac:(lra)).
    apply ln_le; lra.
Qed.

Lemma norm_nonneg (x cap : R) : 0 <= x -> 0 < cap -> 0 <= norm x cap.
Proof.
  intros Hx Hcap. unfold norm.
  pose proof (ln1p_cap_pos cap Hcap).
  pose proof (py_min_glb x cap 0 Hx ltac:(lra)).
  apply Rmult_le_pos.
  - rewrite <- ln_1. apply ln_le; lra.
  - left. by apply Rinv_0_lt_compat.
Qed.

Lemma norm_le_1 (x cap : R) : -1 < x -> 0 < cap -> norm x cap <= 1.
Proof.
  intros Hx Hcap. unfold norm.
  pose proof (ln1p_cap_pos cap Hcap) as Hpos.
  pose proof (py_min_le_r x cap).
  pose proof (py_min_glb_lt x cap (-1) Hx ltac:(lra)).
  apply (Rmult_le_reg_r (ln (1 + cap))); [done|].
  replace (ln (1 + Py.min x cap) / ln (1 + cap) * ln (1 + cap))
    with (ln (1 + Py.min x cap)) by (field; lra).
  rewrite Rmult_1_l. apply ln_le; lra.
Qed.

Lemma norm_saturate (x cap : R) : cap <= x -> norm x cap = norm cap cap.
Proof.
  intros Hx. unfold norm.
  by rewrite (py_min_saturate x cap Hx), (py_min_saturate cap cap (Rle_refl _)).
Qed.


Lemma recency_pos (h : R) : 0 < recency h.
Proof. apply exp_pos. Qed.

Lemma recency_le_1 (h : R) : recency h <= 1.
Proof.
  unfold recency. rewrite <- exp_0.
  pose proof (py_max_0_nonneg h).
  destruct (Req_dec_T (-0.693 * Py.max h 0 / 12.0) 0) as [->|Hne]; [lra|].
  left. apply exp_increasing. lra.
Qed.

Lemma recency_antimono (h h' : R) : h <= h' -> recency h' <= recency h.
Proof.
  intros Hle. unfold recency.
  pose proof (py_max_0_mono h h' Hle).
  destruct (Req_dec_T (-0.693 * Py.max h' 0 / 12.0) (-0.693 * Py.max h 0 / 12.0))
    as [->|Hne]; [lra|].
  left. apply exp_increasing. lra.
Qed.


Lemma source_weight_bounds (source : string) :
  0.5 <= source_weight source <= 1.
Proof.
  unfold source_weight, SOURCE_WEIGHTS.
  repeat (rewrite lookup_insert; case_decide; [simpl; lra|]).
  rewrite lookup_empty. simpl. lra.
Qed.

End Signals.

(** ** The scorer on its domain *)

Section Scorer.

Lemma bind_Ok {A B : Type} (a : A) (k : A -> result B) : (Ok a ≫= k) = k a.
Proof. reflexivity. Qed.

Lemma bind_Raise {A B : Type} (e : exn) (k : A -> result B) :
  (Raise e ≫= k) = Raise e.
Proof. reflexivity. Qed.

Lemma log1p_Ok (x : R) : -1 < x -> Py.log1p x = Ok (ln (1 + x)).
Proof. intros. unfold Py.log1p. destruct (Rle_dec _ _); [lra|done]. Qed.

Lemma log1p_Raise (x : R) : x <= -1 -> Py.log1p x = Raise ValueError.
Proof. intros. unfold Py.log1p. destruct (Rle_dec _ _); [done|lra]. Qed.

Lemma div_Ok (a b : R) : b <> 0 -> Py.div a b = Ok (a / b).
Proof. intros. unfold Py.div. by destruct (Req_dec_T _ _). Qed.

Lemma DBL_MAX_ge_1 : 1 <= Py.DBL_MAX.
Proof.
  unfold Py.DBL_MAX.
  assert (1 <= 2 ^ 1023) as Hbig by (apply pow_R1_Rle; lra).
  assert (1 <= 2 ^ 52) as Hsmall by (apply pow_R1_Rle; lra).
  assert (/ 2 ^ 52 <= 1) as Hinv.
  { rewrite <- Rinv_1. apply Rinv_le_contravar; lra. }
  revert Hbig Hinv. generalize (2 ^ 1023) (/ 2 ^ 52). intros b a Hb Ha. nra.
Qed.

Lemma exp_Ok (x : R) : x <= 0 -> Py.exp x = Ok (Rtrigo_def.exp x).
Proof.
  intros Hx. unfold Py.exp. destruct (Rlt_dec _ _) as [Hover|]; [|done].
  pose proof DBL_MAX_ge_1.
  assert (Rtrigo_def.exp x <= 1); [|lra].
  rewrite <- exp_0. destruct Hx as [Hlt| ->]; [|lra].
  left. by apply exp_increasing.
Qed.

Lemma decay_arg_nonpos (h : R) : -0.693 * Py.max h 0 / 12.0 <= 0.
Proof. pose proof (py_max_0_nonneg h). lra. Qed.

(** With counts above [-1] and positive caps no built-in raises, and the
    result is the rounded weighted sum. *)
Lemma compute_traction_score_eq (source : string) (e c h ecap ccap : R) :
  -1 < e -> -1 < c -> 0 < ecap -> 0 < ccap ->
  compute_traction_score source e c h ecap ccap
  = Ok (Py.round (raw_score source e c h ecap ccap) 2).
Proof.
  intros He Hc Hecap Hccap. unfold compute_traction_score.
  pose proof (ln1p_cap_pos ecap Hecap). pose proof (ln1p_cap_pos ccap Hccap).
  rewrite (log1p_Ok (Py.min e ecap)) by (apply py_min_glb_lt; lra).
  rewrite bind_Ok, (log1p_Ok ecap) by lra.
  rewrite bind_Ok, div_Ok by lra.
  rewrite bind_Ok, (log1p_Ok (Py.min c ccap)) by (apply py_min_glb_lt; lra).
  rewrite bind_Ok, (log1p_Ok ccap) by lra.
  rewrite bind_Ok, div_Ok by lra.
  rewrite bind_Ok. cbv zeta.
  rewrite exp_Ok by apply decay_arg_nonpos.
  by rewrite bind_Ok.
Qed.

Lemma compute_traction_score_engagement_le_m1
    (source : string) (e c h ecap ccap : R) :
  e <= -1 -> compute_traction_score source e c h ecap ccap = Raise ValueError.
Proof.
  intros He. unfold compute_traction_score.
  rewrite (log1p_Raise (Py.min e ecap)); [reflexivity|].
  pose proof (py_min_le_l e ecap). lra.
Qed.

Lemma compute_traction_score_comments_le_m1
    (source : string) (e c h ecap ccap : R) :
  -1 < e -> 0 < ecap -> c <= -1 ->
  compute_traction_score source e c h ecap ccap = Raise ValueError.
Proof.
  intros He Hecap Hc. unfold compute_traction_score.
  pose proof (ln1p_cap_pos ecap Hecap).
  rewrite (log1p_Ok (Py.min e ecap)) by (apply py_min_glb_lt; lra).
  rewrite bind_Ok, (log1p_Ok ecap) by lra.
  rewrite bind_Ok, div_Ok by lra.
  rewrite bind_Ok, (log1p_Raise (Py.min c ccap)); [reflexivity|].
  pose proof (py_min_le_l c ccap). lra.
Qed.

Lemma raw_score_bounds (source : string) (e c h ecap ccap : R) :
  0 <= e -> 0 <= c -> 0 < ecap -> 0 < ccap ->
  0 <= raw_score source e c h ecap ccap <= 100.
Proof.
  intros He Hc Hecap Hccap. unfold raw_score.
  pose proof (norm_nonneg e ecap He Hecap).
  pose proof (norm_nonneg c ccap Hc Hccap).
  pose proof (norm_le_1 e ecap ltac:(lra) Hecap).
  pose proof (norm_le_1 c ccap ltac:(lra) Hccap).
  pose proof (recency_pos h). pose proof (recency_le_1 h).
  pose proof (source_weight_bounds source).
  lra.
Qed.

End Scorer.

(** ** Claims about [compute_traction_score] *)

(** C1: for every source string, non-negative engagement and comments, any
    age and positive caps (the defaults 5000 and 500 included),
    [compute_traction_score] returns a value in the closed interval
    [0, 100]. *)
Theorem score_in_0_100 (source : string) (e c h ecap ccap : R) :
  0 <= e -> 0 <= c -> 0 < ecap -> 0 < ccap ->
  exists s, compute_traction_score source e c h ecap ccap = Ok s /\ 0 <= s <= 100.
Proof.
  intros He Hc Hecap Hccap.
  exists (Py.round (raw_score source e c h ecap ccap) 2). split.
  - apply compute_traction_score_eq; lra.
  - destruct (raw_score_bounds source e c h ecap ccap He Hc Hecap Hccap).
    split.
    + apply (Rle_trans _ (Py.round 0 2)); [rewrite round2_0; lra|].
      by apply round_mono.
    + apply (Rle_trans _ (Py.round 100 2)); [|rewrite round2_100; lra].
      by apply round_mono.
Qed.

Lemma score_in_0_100_witness :
  exists s, compute_traction_score_default "hackernews" 100 50 0 = Ok s
            /\ 0 <= s <= 100.
Proof.
  apply (score_in_0_100 "hackernews" 100 50 0 5000 500); lra.
Defined.



(** C7: the score saturates at the caps.  Replacing an engagement at or above
    [engagement_cap] by the cap itself does not change the result, whatever
    the other arguments, and the same holds for comments and [comments_cap];
    in particular the calls with engagement [cap] and [cap * 10] agree, and
    with valid arguments they return one and the same score. *)
Theorem score_saturates :
  (forall source e c h ecap ccap, ecap <= e ->
     compute_traction_score source e c h ecap ccap
     = compute_traction_score source ecap c h ecap ccap) /\
  (forall source e c h ecap ccap, ccap <= c ->
     compute_traction_score source e c h ecap ccap
     = compute_traction_score source e ccap h ecap ccap) /\
  (forall source c h cap ccap, 0 <= cap ->
     compute_traction_score source cap c h cap ccap
     = compute_traction_score source (cap * 10) c h cap ccap) /\
  (forall source e h ecap cap, 0 <= cap ->
     compute_traction_score source e cap h ecap cap
     = compute_traction_score source e (cap * 10) h ecap cap) /\
  (forall source c cap ccap, 0 < cap -> 0 < ccap -> 0 <= c ->
     exists s, compute_traction_score source cap c 0 cap ccap = Ok s /\
               compute_traction_score source (cap * 10) c 0 cap ccap = Ok s).
Proof.
  assert (forall source e c h ecap ccap, ecap <= e ->
     compute_traction_score source e c h ecap ccap
     = compute_traction_score source ecap c h ecap ccap) as Heng.
  { intros source e c h ecap ccap Hle. unfold compute_traction_score.
    by rewrite (py_min_saturate e ecap Hle),
               (py_min_saturate ecap ecap (Rle_refl _)). }
  assert (forall source e c h ecap ccap, ccap <= c ->
     compute_traction_score source e c h ecap ccap
     = compute_traction_score source e ccap h ecap ccap) as Hcmt.
  { intros source e c h ecap ccap Hle. unfold compute_traction_score.
    by rewrite (py_min_saturate c ccap Hle),
               (py_min_saturate ccap ccap (Rle_refl _)). }
  split; [done|]. split; [done|]. split; [|split].
  - intros source c h cap ccap Hcap. symmetry. apply Heng. lra.
  - intros source e h ecap cap Hcap. symmetry. apply Hcmt. lra.
  - intros source c cap ccap Hcap Hccap Hc.
    exists (Py.round (raw_score source cap c 0 cap ccap) 2). split.
    + apply compute_traction_score_eq; lra.
    + rewrite (Heng source (cap * 10)) by lra.
      apply compute_traction_score_eq; lra.
Qed.

Lemma score_saturates_witness :
  (compute_traction_score "github" 50000 7 2 10000 2000
   = compute_traction_score "github" 10000 7 2 10000 2000) /\
  (compute_traction_score "reddit" 5000 7 0 5000 500
   = compute_traction_score "reddit" (5000 * 10) 7 0 5000 500) /\
  (exists s, compute_traction_score "reddit" 5000 7 0 5000 500 = Ok s /\
             compute_traction_score "reddit" (5000 * 10) 7 0 5000 500 = Ok s).
Proof.
  destruct score_saturates as (Heng & _ & Hten & _ & Hret).
  split; [|split].
  - apply Heng. lra.
  - apply Hten. lra.
  - apply Hret; lra.
Defined.

(** C6: with the other arguments fixed (positive caps; non-negative counts,
    and in fact all counts above [-1]) the score does not increase when
    [hours_old] grows, and does not decrease when the engagement or the
    comment count grows. *)
Theorem score_monotone (source : string) (e c h ecap ccap : R) :
  -1 < e -> -1 < c -> 0 < ecap -> 0 < ccap ->
  (forall h', h <= h' ->
     result_le (compute_traction_score source e c h' ecap ccap)
               (compute_traction_score source e c h ecap ccap)) /\
  (forall e', e <= e' ->
     result_le (compute_traction_score source e c h ecap ccap)
               (compute_traction_score source e' c h ecap ccap)) /\
  (forall c', c <= c' ->
     result_le (compute_traction_score source e c h ecap ccap)
               (compute_traction_score source e c' h ecap ccap)).
Proof.
  intros He Hc Hecap Hccap. unfold result_le. repeat split.
  - intros h' Hh.
    eexists _, _. rewrite !compute_traction_score_eq by lra.
    split; [done|split; [done|]]. apply round_mono. unfold raw_score.
    pose proof (recency_antimono h h' Hh). lra.
  - intros e' Hee.
    eexists _, _. rewrite !compute_traction_score_eq by lra.
    split; [done|split; [done|]]. apply round_mono. unfold raw_score.
    pose proof (norm_mono e e' ecap ltac:(lra) Hee Hecap). lra.
  - intros c' Hcc.
    eexists _, _. rewrite !compute_traction_score_eq by lra.
    split; [done|split; [done|]]. apply round_mono. unfold raw_score.
    pose proof (norm_mono c c' ccap ltac:(lra) Hcc Hccap). lra.
Qed.

Lemma score_monotone_witness :
  result_le (compute_traction_score "hackernews" 100 50 48 5000 500)
            (compute_traction_score "hackernews" 100 50 0 5000 500) /\
  result_le (compute_traction_score "hackernews" 100 50 0 5000 500)
            (compute_traction_score "hackernews" 200 50 0 5000 500) /\
  result_le (compute_traction_score "hackernews" 100 50 0 5000 500)
            (compute_traction_score "hackernews" 100 60 0 5000 500).
Proof.
  destruct (score_monotone "hackernews" 100 50 0 5000 500
              ltac:(lra) ltac:(lra) ltac:(lra) ltac:(lra)) as (Hh & He & Hc).
  split; [apply Hh; lra|split; [apply He; lra|apply Hc; lra]].
Defined.




(** ** Deduplication *)

Section Dedup.

Lemma dedup_inv_init : dedup_inv dedup_init.
Proof.
  split; [|split; [|split]]; simpl.
  - intros u. by rewrite elem_of_empty, elem_of_nil.
  - intros i. by rewrite elem_of_empty, elem_of_nil.
  - apply NoDup_nil_2.
  - apply NoDup_nil_2.
Qed.

Lemma seen_iff_collide (st : dedup_state) (x : item) :
  dedup_inv st ->
  (get_url x ∈ seen_urls st \/ get_id x ∈ seen_ids st)
  <-> Exists (collide x) (dedup_result st).
Proof.
  intros (Hu & Hi & _ & _). rewrite Hu, Hi, Exists_exists.
  rewrite !list_elem_of_fmap. unfold collide. split.
  - intros [(y & Hy & Hin)|(y & Hy & Hin)]; exists y; auto.
  - intros (y & Hin & [Hy|Hy]); [left|right]; exists y; auto.
Qed.

Lemma dedup_step_result (st : dedup_state) (x : item) :
  dedup_inv st ->
  dedup_result (dedup_step st x)
  = dedup_result st
    ++ (if decide (Exists (collide x) (dedup_result st)) then [] else [x]).
Proof.
  intros Hinv. unfold dedup_step.
  pose proof (seen_iff_collide st x Hinv) as Hiff.
  destruct (decide (_ ∨ _)) as [Hseen|Hnew];
    destruct (decide (Exists _ _)) as [Hex|Hnex]; simpl;
    rewrite ?app_nil_r; tauto.
Qed.

Lemma dedup_step_inv (st : dedup_state) (x : item) :
  dedup_inv st -> dedup_inv (dedup_step st x).
Proof.
  intros Hinv. pose proof Hinv as (Hu & Hi & Hnu & Hni). unfold dedup_step.
  destruct (decide (_ ∨ _)) as [Hseen|Hnew]; [done|].
  assert (get_url x ∉ get_url <$> dedup_result st) by (rewrite <- Hu; tauto).
  assert (get_id x ∉ get_id <$> dedup_result st) by (rewrite <- Hi; tauto).
  split; [|split; [|split]]; simpl; rewrite ?fmap_app; simpl.
  - intros u.
    by rewrite elem_of_union, elem_of_singleton, elem_of_app,
      list_elem_of_singleton, Hu.
  - intros i.
    by rewrite elem_of_union, elem_of_singleton, elem_of_app,
      list_elem_of_singleton, Hi.
  - apply NoDup_app. repeat split; [done| |apply NoDup_singleton].
    intros u Hin Hx. apply list_elem_of_singleton in Hx. by subst.
  - apply NoDup_app. repeat split; [done| |apply NoDup_singleton].
    intros u Hin Hx. apply list_elem_of_singleton in Hx. by subst.
Qed.

Lemma dedup_loop_inv (items : list item) (st : dedup_state) :
  dedup_inv st -> dedup_inv (dedup_loop st items).
Proof.
  revert st. induction items as [|x items IH]; intros st Hinv; [done|].
  simpl. apply IH. by apply dedup_step_inv.
Qed.

Lemma dedup_loop_app (st : dedup_state) (l1 l2 : list item) :
  dedup_loop st (l1 ++ l2) = dedup_loop (dedup_loop st l1) l2.
Proof. unfold dedup_loop. apply foldl_app. Qed.

(** The loop only ever appends, and what it appends is drawn in order from
    the items it walks over. *)
Lemma dedup_loop_extends (items : list item) (st : dedup_state) :
  dedup_inv st ->
  exists rest,
    dedup_result (dedup_loop st items) = dedup_result st ++ rest /\
    rest `sublist_of` items.
Proof.
  revert st. induction items as [|x items IH]; intros st Hinv.
  - exists []. simpl. by rewrite app_nil_r.
  - simpl. destruct (IH (dedup_step st x) (dedup_step_inv st x Hinv))
      as (rest & Heq & Hsub).
    rewrite Heq, (dedup_step_result st x Hinv).
    destruct (decide (Exists _ _)).
    + exists rest. rewrite app_nil_r. split; [done|]. by apply sublist_cons.
    + exists (x :: rest). rewrite <- app_assoc. split; [done|].
      by apply sublist_skip.
Qed.

Lemma deduplicate_split (pre post : list item) (x : item) :
  exists rest,
    deduplicate (pre ++ x :: post)
    = deduplicate pre
      ++ (if decide (Exists (collide x) (deduplicate pre)) then [] else [x])
      ++ rest /\
    rest `sublist_of` post.
Proof.
  unfold deduplicate. rewrite dedup_loop_app. simpl.
  pose proof (dedup_loop_inv pre dedup_init dedup_inv_init) as Hpre.
  destruct (dedup_loop_extends post _ (dedup_step_inv _ x Hpre))
    as (rest & Heq & Hsub).
  exists rest. split; [|done].
  by rewrite Heq, (dedup_step_result _ x Hpre), <- app_assoc.
Qed.

Lemma deduplicate_sublist (items : list item) :
  deduplicate items `sublist_of` items.
Proof.
  destruct (dedup_loop_extends items dedup_init dedup_inv_init)
    as (rest & Heq & Hsub).
  unfold deduplicate. by rewrite Heq.
Qed.

Lemma deduplicate_NoDup_url (items : list item) :
  NoDup (get_url <$> deduplicate items).
Proof. apply (dedup_loop_inv items dedup_init dedup_inv_init). Qed.

Lemma deduplicate_NoDup_id (items : list item) :
  NoDup (get_id <$> deduplicate items).
Proof. apply (dedup_loop_inv items dedup_init dedup_inv_init). Qed.

End Dedup.

(** ** Claims about [deduplicate] *)

(** C3 as stated fails in its last part: the second and the third item below
    collide on the id, yet it is the later one that is retained.  The earlier
    one was dropped for its url, so its id never entered the seen-set. *)
Lemma dedup_retains_later_of_colliding_pair :
  let a := sample_item "a1" (Some "https://x.test/a") 50 in
  let b := sample_item "b2" (Some "https://x.test/a") 40 in
  let c := sample_item "b2" (Some "https://x.test/c") 30 in
  get_id b = get_id c /\
  deduplicate [a; b; c] = [a; c] /\
  (b ∉ deduplicate [a; b; c]) /\
  (c ∈ deduplicate [a; b; c]).
Proof.
  intros a b c.
  assert (deduplicate [a; b; c] = [a; c]) as Heq by (vm_compute; reflexivity).
  split; [reflexivity|]. split; [exact Heq|]. rewrite Heq. split.
  - intros Hin. apply elem_of_cons in Hin as [Hin|Hin]; [discriminate|].
    apply list_elem_of_singleton in Hin. discriminate.
  - apply elem_of_cons. right. apply list_elem_of_singleton. reflexivity.
Qed.

(** C3, amended: the output of [deduplicate] has no two items with the same
    url and no two with the same id, and is a subsequence of the input.  An
    input item is retained exactly when no item retained before it has the
    same url or the same id: wherever the input is cut in front of an item
    [x], the output is what is retained of the part before [x], then [x]
    unless it collides with one of those, then items of the part after. *)
Theorem deduplicate_first_retained_wins (items : list item) :
  NoDup (get_url <$> deduplicate items) /\
  NoDup (get_id <$> deduplicate items) /\
  deduplicate items `sublist_of` items /\
  (forall pre x post, items = pre ++ x :: post ->
     exists rest,
       deduplicate items
       = deduplicate pre
         ++ (if decide (Exists (collide x) (deduplicate pre)) then [] else [x])
         ++ rest /\
       rest `sublist_of` post).
Proof.
  split; [apply deduplicate_NoDup_url|].
  split; [apply deduplicate_NoDup_id|].
  split; [apply deduplicate_sublist|].
  intros pre x post ->. apply deduplicate_split.
Qed.

Lemma deduplicate_first_retained_wins_witness :
  let a := sample_item "a1" (Some "https://x.test/a") 50 in
  let b := sample_item "b2" (Some "https://x.test/a") 40 in
  exists rest,
    deduplicate [a; b]
    = deduplicate [a]
      ++ (if decide (Exists (collide b) (deduplicate [a])) then [] else [b])
      ++ rest /\
    rest `sublist_of` [].
Proof.
  intros a b.
  destruct (deduplicate_first_retained_wins [a; b]) as (_ & _ & _ & H).
  apply (H [a] b []). reflexivity.
Defined.

(** The first item of the input is always retained. *)
Lemma deduplicate_head (x : item) (items : list item) :
  exists rest, deduplicate (x :: items) = x :: rest.
Proof.
  destruct (deduplicate_split [] items x) as (rest & Heq & _).
  exists rest. exact Heq.
Qed.

Lemma filter_key_at_most_one {K : Type} `{EqDecision K}
    (f : item -> K) (k : K) (l : list item) :
  NoDup (f <$> l) -> length (filter (fun x => f x = k) l) ≤ 1.
Proof.
  induction l as [|x l IH]; intros Hnd; [simpl; lia|].
  rewrite fmap_cons in Hnd. apply NoDup_cons in Hnd as [Hnotin Hnd].
  rewrite filter_cons. destruct (decide (f x = k)) as [Hk|Hk]; [|by apply IH].
  assert (filter (fun y => f y = k) l = []) as ->; [|simpl; lia].
  destruct (filter _ l) as [|y l'] eqn:Hf; [done|].
  assert (y ∈ filter (fun y => f y = k) l) as Hy by (rewrite Hf; left).
  apply list_elem_of_filter in Hy as [Hyk Hyl].
  exfalso. apply Hnotin. rewrite Hk, <- Hyk. by apply list_elem_of_fmap_2.
Qed.

(** C10 as stated fails: the first item with an empty url is dropped for its
    id, so the empty url is not recorded and the second one survives. *)
Lemma dedup_second_empty_url_survives :
  let a := sample_item "n1" (Some "https://x.test/a") 50 in
  let b := sample_item "n1" (Some "") 40 in
  let c := sample_item "n2" None 30 in
  get_url b = "" /\ get_url c = "" /\ get_id b <> get_id c /\
  deduplicate [a; b; c] = [a; c].
Proof.
  intros a b c.
  split; [reflexivity|]. split; [reflexivity|]. split; [discriminate|].
  vm_compute. reflexivity.
Qed.

(** C10, amended: [deduplicate] treats the empty url (or an absent one) as
    an ordinary url value: at most one item with an empty url survives, even
    when the ids are pairwise distinct; and the survivor is the first such
    item whenever no earlier item of the input has the same id. *)
Theorem dedup_empty_url :
  (forall items,
     length (filter (fun x => get_url x = "") (deduplicate items)) ≤ 1) /\
  (forall pre x post,
     get_url x = "" ->
     Forall (fun y => get_url y <> "" /\ get_id y <> get_id x) pre ->
     filter (fun y => get_url y = "") (deduplicate (pre ++ x :: post)) = [x]).
Proof.
  split.
  - intros items. apply filter_key_at_most_one, deduplicate_NoDup_url.
  - intros pre x post Hx Hpre.
    pose proof (filter_key_at_most_one get_url ""
                  (deduplicate (pre ++ x :: post))
                  (deduplicate_NoDup_url _)) as Hlen.
    destruct (deduplicate_split pre post x) as (rest & Heq & _).
    assert (Forall (fun y => get_url y <> "" /\ get_id y <> get_id x)
                   (deduplicate pre)) as Hkept.
    { rewrite Forall_forall in Hpre |- *. intros y Hy. apply Hpre.
      eapply elem_of_sublist; [done|apply deduplicate_sublist]. }
    destruct (decide (Exists (collide x) (deduplicate pre))) as [Hex|_].
    { exfalso. apply Exists_exists in Hex as (y & Hy & Hcol).
      rewrite Forall_forall in Hkept. destruct (Hkept y Hy) as [Hu Hi].
      destruct Hcol as [Hcol|Hcol]; congruence. }
    rewrite Heq in Hlen |- *. rewrite !filter_app in Hlen |- *.
    assert (filter (fun y => get_url y = "") (deduplicate pre) = []) as Hnil.
    { clear -Hkept. induction Hkept as [|y l [Hu _] _ IH]; [done|].
      by rewrite filter_cons_False. }
    rewrite Hnil in Hlen |- *.
    rewrite (filter_cons_True _ x []) in Hlen |- * by done.
    rewrite filter_nil in Hlen |- *. simpl in Hlen |- *.
    destruct (filter _ rest); [done|simpl in Hlen; lia].
Qed.

Lemma dedup_empty_url_witness :
  let b := sample_item "n1" (Some "") 40 in
  let c := sample_item "n2" None 30 in
  filter (fun y => get_url y = "") (deduplicate ([] ++ b :: [c])) = [b].
Proof.
  intros b c. destruct dedup_empty_url as [_ H].
  apply (H [] b [c]); [reflexivity|constructor].
Defined.

(** ** Stable sorting *)

Section StableSortFacts.
Context {A : Type} (after : A -> A -> bool).

(** [after] behaves like a comparison of keys with [<]. *)
Hypothesis after_asym : forall x y, after x y = true -> after y x = false.
Hypothesis in_order_trans :
  forall x y z, after x y = false -> after y z = false -> after x z = false.

Lemma insert_sorted_perm (x : A) (l : list A) :
  insert_sorted after x l ≡ₚ x :: l.
Proof.
  induction l as [|y l IH]; simpl; [done|].
  destruct (after x y); [|done]. rewrite IH. apply Permutation_swap.
Qed.

Lemma stable_sort_perm (l : list A) : stable_sort after l ≡ₚ l.
Proof.
  induction l as [|x l IH]; simpl; [done|].
  by rewrite insert_sorted_perm, IH.
Qed.

Lemma insert_sorted_sorted (x : A) (l : list A) :
  StronglySorted (in_order after) l ->
  StronglySorted (in_order after) (insert_sorted after x l).
Proof.
  induction 1 as [|y l Hs IH Hall]; simpl.
  - repeat constructor.
  - destruct (after x y) eqn:Hxy.
    + constructor; [done|].
      rewrite insert_sorted_perm. constructor; [|done].
      by apply after_asym.
    + constructor; [by constructor|]. constructor; [done|].
      eapply Forall_impl; [exact Hall|]. intros z Hyz.
      by apply (in_order_trans x y z).
Qed.

Lemma stable_sort_sorted (l : list A) :
  StronglySorted (in_order after) (stable_sort after l).
Proof.
  induction l as [|x l IH]; simpl; [constructor|].
  by apply insert_sorted_sorted.
Qed.

(** Elements that are pairwise in order whichever comes first (equal keys)
    are never moved past each other. *)
Lemma insert_sorted_filter (P : A -> Prop) `{forall x, Decision (P x)}
    (x : A) (l : list A) :
  (forall y z, P y -> P z -> after y z = false) ->
  filter P (insert_sorted after x l) = filter P (x :: l).
Proof.
  intros Heq. induction l as [|y l IH]; simpl; [done|].
  destruct (after x y) eqn:Hxy; [|done].
  rewrite filter_cons, IH, !(filter_cons _ x), (filter_cons _ y).
  destruct (decide (P x)) as [Hx|Hx], (decide (P y)) as [Hy|Hy]; try done.
  rewrite (Heq x y Hx Hy) in Hxy. discriminate.
Qed.

Lemma stable_sort_filter (P : A -> Prop) `{forall x, Decision (P x)}
    (l : list A) :
  (forall y z, P y -> P z -> after y z = false) ->
  filter P (stable_sort after l) = filter P l.
Proof.
  intros Heq. induction l as [|x l IH]; simpl; [done|].
  by rewrite insert_sorted_filter, !filter_cons, IH.
Qed.

End StableSortFacts.

(** ** Ranking *)

Section Ranking.

Lemma StronglySorted_weaken {A : Type} (R1 R2 : relation A) (l : list A) :
  (forall x y, R1 x y -> R2 x y) ->
  StronglySorted R1 l -> StronglySorted R2 l.
Proof.
  intros Himpl. induction 1 as [|x l _ IH Hall]; constructor; [done|].
  eapply Forall_impl; [exact Hall|]. intros y. apply Himpl.
Qed.

Lemma after_score_asym (x y : item) :
  bool_decide (get_score x < get_score y) = true ->
  bool_decide (get_score y < get_score x) = false.
Proof.
  rewrite bool_decide_eq_true, bool_decide_eq_false. lra.
Qed.

Lemma in_order_score_trans (x y z : item) :
  bool_decide (get_score x < get_score y) = false ->
  bool_decide (get_score y < get_score z) = false ->
  bool_decide (get_score x < get_score z) = false.
Proof.
  rewrite !bool_decide_eq_false. lra.
Qed.

Lemma sort_by_score_desc_perm (items : list item) :
  sort_by_score_desc items ≡ₚ items.
Proof. apply stable_sort_perm. Qed.

Lemma sort_by_score_desc_sorted (items : list item) :
  StronglySorted (fun x y => get_score y <= get_score x)
                 (sort_by_score_desc items).
Proof.
  eapply StronglySorted_weaken;
    [|apply stable_sort_sorted;
      [apply after_score_asym|apply in_order_score_trans]].
  intros x y. unfold in_order. rewrite bool_decide_eq_false. lra.
Qed.

Lemma sort_by_score_desc_stable (items : list item) (s : R) :
  filter (fun x => get_score x = s) (sort_by_score_desc items)
  = filter (fun x => get_score x = s) items.
Proof.
  apply stable_sort_filter. intros y z -> Hz.
  rewrite bool_decide_eq_false. lra.
Qed.

(** Sortedness and stability pin the result down: every stable sort by
    descending score, whatever its algorithm, returns this very list. *)
Lemma sorted_stable_unique (l1 l2 : list item) :
  StronglySorted (fun x y => get_score y <= get_score x) l1 ->
  StronglySorted (fun x y => get_score y <= get_score x) l2 ->
  (forall s, filter (fun x => get_score x = s) l1
             = filter (fun x => get_score x = s) l2) ->
  l1 = l2.
Proof.
  revert l2. induction l1 as [|x l1 IH]; intros l2 Hs1 Hs2 Hf.
  - destruct l2 as [|y l2]; [done|]. specialize (Hf (get_score y)).
    rewrite filter_nil, filter_cons_True in Hf by done. discriminate.
  - destruct l2 as [|y l2].
    { specialize (Hf (get_score x)).
      rewrite filter_nil, filter_cons_True in Hf by done. discriminate. }
    apply StronglySorted_cons in Hs1 as [Hx Hs1].
    apply StronglySorted_cons in Hs2 as [Hy Hs2].
    rewrite Forall_forall in Hx, Hy.
    assert (get_score x <= get_score y) as Hle1.
    { assert (x ∈ filter (fun z => get_score z = get_score x) (y :: l2)) as Hin.
      { rewrite <- Hf, filter_cons_True by done. left. }
      apply list_elem_of_filter in Hin as [_ Hin].
      apply elem_of_cons in Hin as [->|Hin]; [lra|by apply Hy]. }
    assert (get_score y <= get_score x) as Hle2.
    { assert (y ∈ filter (fun z => get_score z = get_score y) (x :: l1)) as Hin.
      { rewrite Hf, filter_cons_True by done. left. }
      apply list_elem_of_filter in Hin as [_ Hin].
      apply elem_of_cons in Hin as [->|Hin]; [lra|by apply Hx]. }
    assert (get_score x = get_score y) as Hxy by lra.
    pose proof (Hf (get_score x)) as Hhead.
    rewrite filter_cons_True, (filter_cons_True _ y) in Hhead by done.
    injection Hhead as -> _. f_equal. apply IH; [done|done|].
    intros s. specialize (Hf s). rewrite !filter_cons in Hf.
    destruct (decide (get_score y = s)); [by injection Hf|done].
Qed.

Lemma sort_by_score_desc_unique (items l : list item) :
  StronglySorted (fun x y => get_score y <= get_score x) l ->
  (forall s, filter (fun x => get_score x = s) l
             = filter (fun x => get_score x = s) items) ->
  l = sort_by_score_desc items.
Proof.
  intros Hs Hf. apply sorted_stable_unique;
    [done|apply sort_by_score_desc_sorted|].
  intros s. by rewrite Hf, sort_by_score_desc_stable.
Qed.

Lemma rank_take_drop (items : list item) :
  rank items ++ rank_discarded items = sort_by_score_desc items.
Proof. apply take_drop. Qed.

End Ranking.

(** C4: the ranking step sorts by [traction_score] in non-increasing order,
    items with equal scores keep their original relative order, the result
    is cut to at most [MAX_TOTAL_ITEMS = 200] items, and the cut comes after
    the sort: every retained item scores at least as high as every discarded
    one. *)
Theorem rank_sorted_stable_bounded (items : list item) :
  rank items = take 200 (sort_by_score_desc items) /\
  sort_by_score_desc items ≡ₚ items /\
  StronglySorted (fun x y => get_score y <= get_score x)
                 (sort_by_score_desc items) /\
  (forall s, filter (fun x => get_score x = s) (sort_by_score_desc items)
             = filter (fun x => get_score x = s) items) /\
  length (rank items) = Nat.min 200 (length items) /\
  StronglySorted (fun x y => get_score y <= get_score x) (rank items) /\
  (forall s, filter (fun x => get_score x = s) (rank items)
             `prefix_of` filter (fun x => get_score x = s) items) /\
  rank items ++ rank_discarded items ≡ₚ items /\
  (forall x y, x ∈ rank items -> y ∈ rank_discarded items ->
               get_score y <= get_score x).
Proof.
  pose proof (sort_by_score_desc_sorted items) as Hsorted.
  rewrite <- (rank_take_drop items) in Hsorted.
  split; [done|]. split; [apply sort_by_score_desc_perm|].
  split; [apply sort_by_score_desc_sorted|].
  split; [apply sort_by_score_desc_stable|].
  split.
  { unfold rank, MAX_TOTAL_ITEMS.
    by rewrite length_take, (Permutation_length (sort_by_score_desc_perm items)). }
  split; [by apply StronglySorted_app_1_l in Hsorted|].
  split.
  { intros s. rewrite <- (sort_by_score_desc_stable items s).
    rewrite <- (rank_take_drop items), filter_app. by eexists. }
  split; [by rewrite rank_take_drop, sort_by_score_desc_perm|].
  intros x y Hx Hy.
  by apply (StronglySorted_app_1_elem_of _ _ _ x y Hsorted).
Qed.

Lemma rank_sorted_stable_bounded_witness :
  let a := sample_item "a" (Some "u1") 30 in
  let b := sample_item "b" (Some "u2") 50 in
  let c := sample_item "c" (Some "u3") 30 in
  length (rank [a; b; c]) = 3%nat /\
  StronglySorted (fun x y => get_score y <= get_score x) (rank [a; b; c]) /\
  filter (fun x => get_score x = 30) (sort_by_score_desc [a; b; c]) = [a; c].
Proof.
  intros a b c.
  destruct (rank_sorted_stable_bounded [a; b; c])
    as (_ & _ & _ & Hstable & Hlen & Hsorted & _).
  split; [exact Hlen|]. split; [exact Hsorted|].
  rewrite Hstable. subst a b c. unfold sample_item, get_score.
  rewrite !filter_cons. simpl.
  repeat (destruct (decide _); try lra). done.
Defined.

(** ** Score statistics *)

Section Stats.

Lemma py_int_ratio (n : nat) (p : R) (a b : Z) :
  (0 < b)%Z -> (0 <= a)%Z -> p = IZR a / IZR b ->
  py_int (INR n * p) = (Z.of_nat n * a / b)%Z.
Proof.
  intros Hb Ha ->. unfold py_int.
  assert (0 < IZR b) as Hb' by (by apply IZR_lt).
  assert (0 <= IZR a) as Ha' by (by apply IZR_le).
  pose proof (pos_INR n) as Hn.
  assert (0 <= INR n * (IZR a / IZR b)) as Hnonneg.
  { apply Rmult_le_pos; [done|]. apply Rmult_le_pos; [done|].
    left. by apply Rinv_0_lt_compat. }
  destruct (decide (0 <= _)) as [_|Hneg]; [|done].
  apply Zfloor_eq. rewrite INR_IZR_INZ.
  set (N := Z.of_nat n). set (q := (N * a / b)%Z).
  assert (b * q <= N * a < b * q + b)%Z as [Hlo Hhi].
  { pose proof (Z.div_mod (N * a) b ltac:(lia)) as Hdm.
    pose proof (Z.mod_pos_bound (N * a) b Hb). subst q. lia. }
  apply IZR_le in Hlo. apply IZR_lt in Hhi.
  rewrite !mult_IZR in Hlo. rewrite plus_IZR, !mult_IZR in Hhi.
  split.
  - apply (Rmult_le_reg_r (IZR b)); [done|].
    replace (IZR N * (IZR a / IZR b) * IZR b) with (IZR N * IZR a)
      by (field; lra).
    lra.
  - apply (Rmult_lt_reg_r (IZR b)); [done|].
    replace (IZR N * (IZR a / IZR b) * IZR b) with (IZR N * IZR a)
      by (field; lra).
    lra.
Qed.

Lemma py_int_len_075 (n : nat) :
  py_int (INR n * 0.75) = Z.of_nat (n * 3 / 4).
Proof.
  rewrite (py_int_ratio n 0.75 3 4) by (lia || lra).
  rewrite Nat2Z.inj_div, Nat2Z.inj_mul. done.
Qed.

Lemma py_int_len_090 (n : nat) :
  py_int (INR n * 0.90) = Z.of_nat (n * 9 / 10).
Proof.
  rewrite (py_int_ratio n 0.90 9 10) by (lia || lra).
  rewrite Nat2Z.inj_div, Nat2Z.inj_mul. done.
Qed.

Lemma py_index_nat (l : list R) (i : nat) : py_index l (Z.of_nat i) = l !! i.
Proof.
  unfold py_index. destruct (decide _) as [_|Hneg]; [|lia].
  by rewrite Nat2Z.id.
Qed.

Lemma sorted_perm (scores : list R) : sorted scores ≡ₚ scores.
Proof. apply stable_sort_perm. Qed.

Lemma sorted_ascending (scores : list R) : StronglySorted Rle (sorted scores).
Proof.
  eapply StronglySorted_weaken; [|apply stable_sort_sorted].
  - intros x y. unfold in_order. rewrite bool_decide_eq_false. lra.
  - intros x y. rewrite bool_decide_eq_true, bool_decide_eq_false. lra.
  - intros x y z. rewrite !bool_decide_eq_false. lra.
Qed.

Lemma ascending_lookup (l : list R) (i j : nat) (a b : R) :
  StronglySorted Rle l -> i ≤ j ->
  l !! i = Some a -> l !! j = Some b -> a <= b.
Proof.
  intros Hs. revert i j. induction Hs as [|x l _ IH Hall]; intros i j Hij Hi Hj.
  - by rewrite lookup_nil in Hi.
  - destruct i as [|i], j as [|j]; simpl in *; simplify_eq; [lra| |lia|].
    + rewrite Forall_forall in Hall. apply Hall.
      by eapply list_elem_of_lookup_2.
    + by apply (IH i j); [lia|..].
Qed.

Lemma py_max_list_ge_init (x : R) (l : list R) : x <= py_max_list x l.
Proof.
  revert x. induction l as [|y l IH]; intros x; simpl; [lra|].
  eapply Rle_trans; [|apply IH]. unfold Py.max. destruct (Rlt_dec _ _); lra.
Qed.

Lemma py_max_list_upper (x : R) (l : list R) (y : R) :
  y ∈ x :: l -> y <= py_max_list x l.
Proof.
  revert x. induction l as [|z l IH]; intros x Hy.
  - apply list_elem_of_singleton in Hy as ->. simpl. lra.
  - simpl. apply elem_of_cons in Hy as [->|Hy].
    { eapply Rle_trans; [|apply py_max_list_ge_init].
      unfold Py.max. destruct (Rlt_dec _ _); lra. }
    apply elem_of_cons in Hy as [->|Hy].
    + eapply Rle_trans; [|apply py_max_list_ge_init].
      unfold Py.max. destruct (Rlt_dec _ _); lra.
    + apply IH. by right.
Qed.

Lemma py_max_list_elem (x : R) (l : list R) : py_max_list x l ∈ x :: l.
Proof.
  revert x. induction l as [|z l IH]; intros x; simpl; [left|].
  specialize (IH (Py.max x z)).
  apply elem_of_cons in IH as [Heq|Hin]; [|by do 2 right].
  unfold py_max_list in *. rewrite Heq. unfold Py.max.
  destruct (Rlt_dec _ _); [right|]; left.
Qed.

End Stats.

Section StatsSpec.

Lemma percentile_075 (scores : list R) :
  scores <> [] ->
  percentile scores 0.75 = sorted scores !! (length scores * 3 / 4)%nat.
Proof.
  intros Hne. destruct scores as [|s rest]; [done|]. unfold percentile.
  by rewrite py_int_len_075, py_index_nat.
Qed.

Lemma percentile_090 (scores : list R) :
  scores <> [] ->
  percentile scores 0.90 = sorted scores !! (length scores * 9 / 10)%nat.
Proof.
  intros Hne. destruct scores as [|s rest]; [done|]. unfold percentile.
  by rewrite py_int_len_090, py_index_nat.
Qed.

Lemma compute_stats_cons (x : item) (l : list item) :
  compute_stats (x :: l)
  = (p75 ← percentile (get_score <$> x :: l) 0.75;
     p90 ← percentile (get_score <$> x :: l) 0.90;
     Some {| max_score := py_max_list (get_score x) (get_score <$> l);
             p90_score := p90;
             p75_score := p75 |}).
Proof. reflexivity. Qed.

Lemma sorted_lookup_lt (scores : list R) (i : nat) :
  (i < length scores)%nat -> exists s, sorted scores !! i = Some s.
Proof.
  intros Hi. apply lookup_lt_is_Some_2.
  by rewrite (Permutation_length (sorted_perm scores)).
Qed.

End StatsSpec.

(** C5: the statistics are taken over the truncated ranked set.  The
    computation never fails; on the empty set the three statistics are 0; on
    a non-empty set of [n] scores the percentiles are the elements of the
    ascending sorted scores at the indices [floor(n * 0.75)] and
    [floor(n * 0.90)] (no interpolation), [max_score] is the greatest score,
    and [p75_score <= p90_score <= max_score]. *)
Theorem stats_index_rule :
  (forall items,
     main_core items
     = (rank (deduplicate items), compute_stats (rank (deduplicate items)))) /\
  (forall all_items,
     let scores := get_score <$> all_items in
     let n := length scores in
     exists st,
       compute_stats all_items = Some st /\
       (all_items = [] ->
          max_score st = 0 /\ p90_score st = 0 /\ p75_score st = 0) /\
       (all_items <> [] ->
          sorted scores !! (n * 3 / 4)%nat = Some (p75_score st) /\
          sorted scores !! (n * 9 / 10)%nat = Some (p90_score st) /\
          (max_score st ∈ scores) /\
          (forall s, s ∈ scores -> s <= max_score st) /\
          p75_score st <= p90_score st /\
          p90_score st <= max_score st)).
Proof.
  split; [done|]. intros all_items scores n.
  destruct all_items as [|x l].
  { eexists. split; [reflexivity|]. split; [done|]. by intros []. }
  assert (scores <> []) as Hne by done.
  assert (0 < n)%nat as Hn by (subst n scores; simpl; lia).
  destruct (sorted_lookup_lt scores (n * 3 / 4)) as [p75 H75].
  { apply Nat.Div0.div_lt_upper_bound. lia. }
  destruct (sorted_lookup_lt scores (n * 9 / 10)) as [p90 H90].
  { apply Nat.Div0.div_lt_upper_bound. lia. }
  exists {| max_score := py_max_list (get_score x) (get_score <$> l);
            p90_score := p90; p75_score := p75 |}.
  split.
  { rewrite compute_stats_cons. fold scores.
    rewrite (percentile_075 scores Hne), (percentile_090 scores Hne).
    fold n. by rewrite H75, H90. }
  split; [done|]. intros _. simpl.
  assert (forall s, s ∈ scores -> s <= py_max_list (get_score x) (get_score <$> l))
    as Hmax by (intros s; apply py_max_list_upper).
  split; [done|]. split; [done|].
  split; [apply py_max_list_elem|]. split; [done|]. split.
  - apply (ascending_lookup (sorted scores) (n * 3 / 4) (n * 9 / 10));
      [apply sorted_ascending| |done|done].
    apply Nat.div_le_lower_bound; [lia|].
    pose proof (Nat.Div0.mul_div_le (n * 3) 4). lia.
  - apply Hmax. rewrite <- (sorted_perm scores).
    by eapply list_elem_of_lookup_2.
Qed.

Lemma stats_index_rule_witness :
  exists st,
    compute_stats [sample_item "a" (Some "u1") 10;
                   sample_item "b" (Some "u2") 50] = Some st /\
    p75_score st <= p90_score st /\ p90_score st <= max_score st.
Proof.
  destruct stats_index_rule as [_ H].
  destruct (H [sample_item "a" (Some "u1") 10; sample_item "b" (Some "u2") 50])
    as (st & Hst & _ & Hne).
  exists st. split; [exact Hst|].
  destruct (Hne ltac:(discriminate)) as (_ & _ & _ & _ & H75 & H90).
  split; [exact H75|exact H90].
Defined.

(** ** Date parsing *)

Section ParseDate.
Context {L : Runtime}.

Lemma try_format_Raise (date_str fmt : string) (e : exn) :
  try_format date_str fmt = Raise e ->
  strptime (str_strip date_str) fmt = Raise e.
Proof.
  unfold try_format. destruct (strptime _ _) as [dt|e'].
  - rewrite bind_Ok. discriminate.
  - rewrite bind_Raise. by intros [= ->].
Qed.

Lemma try_format_Ok (date_str fmt : string) (dt : datetime) :
  strptime (str_strip date_str) fmt = Ok dt ->
  try_format date_str fmt
  = Ok (isoformat (if tzinfo_is_None dt then replace_tzinfo_utc dt else dt)).
Proof. unfold try_format. by intros ->. Qed.

(** Formats are tried in order: the first one [strptime] accepts decides. *)
Lemma parse_date_loop_first (now date_str : string)
    (pre post : list string) (fmt : string) (dt : datetime) :
  Forall (fun f => strptime (str_strip date_str) f = Raise ValueError) pre ->
  strptime (str_strip date_str) fmt = Ok dt ->
  parse_date_loop now date_str (pre ++ fmt :: post)
  = Ok (isoformat (if tzinfo_is_None dt then replace_tzinfo_utc dt else dt)).
Proof.
  intros Hpre Hfmt. induction Hpre as [|f pre Hf _ IH]; simpl.
  - by rewrite (try_format_Ok _ _ dt Hfmt).
  - unfold try_format at 1. by rewrite Hf.
Qed.

Lemma parse_date_loop_none (now date_str : string) (fmts : list string) :
  Forall (fun f => strptime (str_strip date_str) f = Raise ValueError) fmts ->
  parse_date_loop now date_str fmts = Ok now.
Proof.
  induction 1 as [|f fmts Hf _ IH]; simpl; [done|].
  unfold try_format at 1. by rewrite Hf.
Qed.

Context {Laws : RuntimeLaws L}.

Lemma parse_date_loop_returns (now date_str : string) (fmts : list string) :
  returns (parse_date_loop now date_str fmts).
Proof.
  induction fmts as [|fmt fmts IH]; simpl; [by eexists|].
  destruct (try_format date_str fmt) as [iso|e] eqn:Htry; [by eexists|].
  apply try_format_Raise, strptime_raises_ValueError in Htry as ->. exact IH.
Qed.

Lemma parse_date_returns (now date_str : string) :
  returns (parse_date now date_str).
Proof.
  unfold parse_date. destruct (decide _); [by eexists|].
  apply parse_date_loop_returns.
Qed.

End ParseDate.

Lemma parse_date_fallback `{L : Runtime} (now date_str : string) :
  date_str = "" \/ unparseable date_str -> parse_date now date_str = Ok now.
Proof.
  intros Hbad. unfold parse_date. destruct (decide _) as [|Hne]; [done|].
  destruct Hbad as [|Hun]; [done|]. by apply parse_date_loop_none.
Qed.

#[global] Instance compact_runtime_laws : RuntimeLaws compact_runtime.
Proof.
  constructor. intros s fmt e. simpl.
  destruct (decide _); [destruct (_ && _)|]; congruence.
Qed.

Example parse_date_compact :
  parse_date (L := compact_runtime) "2026-11-03T12:00:00+00:00" "20260101"
  = Ok "2026-01-01T00:00:00+00:00".
Proof. reflexivity. Qed.

(** C8: [parse_date] never raises on a string.  It tries the six formats in
    order, the first accepted one giving the result, and returns the current
    time when the string is empty or no format accepts it; the item
    [fetch_rss] builds from an entry with such a date is produced all the
    same and carries the current time as its date. *)
Theorem parse_date_never_raises `{L : Runtime} `{!RuntimeLaws L}
    (now date_str : string) :
  returns (parse_date now date_str) /\
  (date_str = "" \/ unparseable date_str ->
     parse_date now date_str = Ok now) /\
  (forall pre fmt post dt,
     date_str <> "" ->
     DATE_FORMATS = pre ++ fmt :: post ->
     Forall (fun f => strptime (str_strip date_str) f = Raise ValueError) pre ->
     strptime (str_strip date_str) fmt = Ok dt ->
     parse_date now date_str
     = Ok (isoformat (if tzinfo_is_None dt then replace_tzinfo_utc dt else dt))) /\
  (forall entry,
     entry_published entry = date_str ->
     returns (rss_item now entry) /\
     (date_str = "" \/ unparseable date_str ->
        exists it, rss_item now entry = Ok it /\ item_date it = now)).
Proof.
  split; [apply parse_date_returns|].
  split; [apply parse_date_fallback|].
  split.
  { intros pre fmt post dt Hne Hfmts Hpre Hfmt. unfold parse_date.
    destruct (decide _); [done|]. rewrite Hfmts.
    by apply parse_date_loop_first. }
  intros entry Hpub.
  assert (forall iso, parse_date now (entry_published entry) = Ok iso ->
            exists it, rss_item now entry = Ok it /\ item_date it = iso) as Hitem.
  { intros iso Hiso. unfold rss_item. rewrite Hiso, bind_Ok.
    unfold compute_traction_score_default, default_engagement_cap,
      default_comments_cap.
    rewrite compute_traction_score_eq by lra. rewrite bind_Ok.
    by eexists. }
  split.
  - destruct (parse_date_returns now (entry_published entry)) as [iso Hiso].
    destruct (Hitem iso Hiso) as (it & Hit & _). by exists it.
  - intros Hbad. apply Hitem. rewrite Hpub. by apply parse_date_fallback.
Qed.

Lemma parse_date_never_raises_witness :
  parse_date (L := compact_runtime) "2026-11-03T12:00:00+00:00" "next tuesday"
  = Ok "2026-11-03T12:00:00+00:00".
Proof.
  destruct (parse_date_never_raises (L := compact_runtime)
              "2026-11-03T12:00:00+00:00" "next tuesday") as (_ & H & _).
  apply H. right. unfold unparseable, DATE_FORMATS.
  repeat constructor.
Defined.

(** ** The pipeline on small inputs *)

Ltac decide_cmp :=
  repeat match goal with
  | |- context [bool_decide (?a < ?b)] =>
      first [ rewrite (bool_decide_eq_true_2 (a < b)) by lra
            | rewrite (bool_decide_eq_false_2 (a < b)) by lra ]
  end.

(** Two items with the url ["https://x.test/a"]: the first-ingested one
    survives. *)
Example deduplicate_same_url :
  let hn := sample_item "h1" (Some "https://x.test/a") 80 in
  let rd := sample_item "r1" (Some "https://x.test/a") 90 in
  deduplicate [hn; rd] = [hn].
Proof. vm_compute. reflexivity. Qed.

(** Equal scores keep their input order. *)
Example sort_by_score_desc_small :
  let a := sample_item "a" (Some "u1") 30 in
  let b := sample_item "b" (Some "u2") 50 in
  let c := sample_item "c" (Some "u3") 30 in
  sort_by_score_desc [a; b; c] = [b; a; c].
Proof.
  intros a b c. subst a b c.
  unfold sort_by_score_desc, stable_sort, get_score, sample_item.
  by repeat (progress simpl; decide_cmp).
Qed.

Example sorted_small : sorted [10; 50; 20; 40; 30] = [10; 20; 30; 40; 50].
Proof.
  unfold sorted, stable_sort. by repeat (progress simpl; decide_cmp).
Qed.

Example compute_stats_small :
  compute_stats [ sample_item "a" (Some "u1") 10;
                  sample_item "b" (Some "u2") 50;
                  sample_item "c" (Some "u3") 20;
                  sample_item "d" (Some "u4") 40;
                  sample_item "e" (Some "u5") 30 ]
  = Some {| max_score := 50; p90_score := 50; p75_score := 40 |}.
Proof.
  rewrite compute_stats_cons.
  rewrite percentile_075, percentile_090 by done.
  rewrite !fmap_cons, fmap_nil.
  repeat change (get_score (sample_item ?i ?u ?s)) with s.
  rewrite sorted_small. simpl.
  unfold Py.max. repeat (destruct (Rlt_dec _ _); try lra). done.
Qed.

Lemma norm_0 (cap : R) : 0 < cap -> norm 0 cap = 0.
Proof.
  intros Hcap. unfold norm.
  assert (Py.min 0 cap = 0) as -> by (unfold Py.min; destruct (Rlt_dec _ _); lra).
  rewrite Rplus_0_r, ln_1. pose proof (ln1p_cap_pos cap Hcap). field. lra.
Qed.

Lemma norm_cap (cap : R) : 0 < cap -> norm cap cap = 1.
Proof.
  intros Hcap. unfold norm. rewrite py_min_saturate by lra.
  pose proof (ln1p_cap_pos cap Hcap). field. lra.
Qed.

Lemma recency_0 : recency 0 = 1.
Proof.
  unfold recency.
  assert (Py.max 0 0 = 0) as -> by (unfold Py.max; destruct (Rlt_dec _ _); lra).
  rewrite <- exp_0. f_equal. lra.
Qed.

(** A fresh news entry without signals scores 25 for recency and 8.25 for
    its source. *)
Example score_fresh_news :
  compute_traction_score_default "news" 0 0 0 = Ok 33.25.
Proof.
  unfold compute_traction_score_default, default_engagement_cap,
    default_comments_cap.
  rewrite compute_traction_score_eq by lra. f_equal.
  unfold raw_score. rewrite !norm_0, recency_0 by lra.
  assert (source_weight "news" = 0.55) as -> by reflexivity.
  replace ((0 * 0.40 + 0 * 0.20 + 1 * 0.25 + 0.55 * 0.15) * 100)
    with (IZR 3325 / 10 ^ 2) by (simpl; lra).
  rewrite round_IZR_div. simpl. lra.
Qed.

(** The upper end of the scale is reached: a fresh Hacker News story at both
    caps scores 100. *)
Example score_saturated_hackernews :
  compute_traction_score_default "hackernews" 5000 500 0 = Ok 100.
Proof.
  unfold compute_traction_score_default, default_engagement_cap,
    default_comments_cap.
  rewrite compute_traction_score_eq by lra. f_equal.
  unfold raw_score. rewrite !norm_cap, recency_0 by lra.
  assert (source_weight "hackernews" = 1.0) as -> by reflexivity.
  replace ((1 * 0.40 + 1 * 0.20 + 1 * 0.25 + 1.0 * 0.15) * 100) with 100 by lra.
  apply round2_100.
Qed.

(** * Further properties of the code *)

(** ** More on [compute_traction_score] *)

Section ScorerMore.

Lemma py_max_0_of_nonpos (h : R) : h <= 0 -> Py.max h 0 = 0.
Proof. intros Hh. unfold Py.max. destruct (Rlt_dec _ _); lra. Qed.

Lemma round_half_even_error (t : R) :
  t - 1 / 2 <= IZR (Py.round_half_even t) <= t + 1 / 2.
Proof.
  pose proof (Zfloor_bound t) as Hfl.
  unfold Py.round_half_even.
  repeat destruct (Rlt_dec _ _); try destruct (Z.even _);
    rewrite ?plus_IZR; simpl; lra.
Qed.

Lemma round2_error (x : R) : x - 0.005 <= Py.round x 2 <= x + 0.005.
Proof.
  unfold Py.round. pose proof (round_half_even_error (x * 10 ^ 2)) as Herr.
  simpl in *. lra.
Qed.

Lemma source_weight_cases (source : string) :
  source_weight source ∈ [1.0; 0.85; 0.75; 0.65; 0.55; 0.5].
Proof.
  unfold source_weight, SOURCE_WEIGHTS.
  rewrite lookup_insert. case_decide; [simpl; set_solver|].
  rewrite lookup_insert. case_decide; [simpl; set_solver|].
  rewrite lookup_insert. case_decide; [simpl; set_solver|].
  rewrite lookup_insert. case_decide; [simpl; set_solver|].
  rewrite lookup_insert. case_decide; [simpl; set_solver|].
  rewrite lookup_empty. simpl. set_solver.
Qed.

(** Multiples of a hundredth are left alone by [round(x, 2)]. *)
Lemma round2_hundredths (z : Z) (x : R) :
  x = IZR z / 100 -> Py.round x 2 = x.
Proof.
  intros ->. replace (IZR z / 100) with (IZR z / 10 ^ 2) by (simpl; lra).
  apply round_IZR_div.
Qed.

Lemma round2_weight_floor (source : string) :
  Py.round (15 * source_weight source) 2 = 15 * source_weight source.
Proof.
  pose proof (source_weight_cases source) as Hw.
  repeat (apply elem_of_cons in Hw as [->|Hw]);
    [eapply (round2_hundredths 1500)|eapply (round2_hundredths 1275)
    |eapply (round2_hundredths 1125)|eapply (round2_hundredths 975)
    |eapply (round2_hundredths 825)|eapply (round2_hundredths 750)|];
    try lra.
  by apply elem_of_nil in Hw.
Qed.

Lemma round2_weight_ceiling (source : string) :
  Py.round (85 + 15 * source_weight source) 2 = 85 + 15 * source_weight source.
Proof.
  pose proof (source_weight_cases source) as Hw.
  repeat (apply elem_of_cons in Hw as [->|Hw]);
    [eapply (round2_hundredths 10000)|eapply (round2_hundredths 9775)
    |eapply (round2_hundredths 9625)|eapply (round2_hundredths 9475)
    |eapply (round2_hundredths 9325)|eapply (round2_hundredths 9250)|];
    try lra.
  by apply elem_of_nil in Hw.
Qed.

Lemma recency_48_small (h : R) : 48 <= h -> recency h < / 3.772.
Proof.
  intros Hh. apply Rle_lt_trans with (recency 48); [by apply recency_antimono|].
  unfold recency.
  assert (Py.max 48 0 = 48) as -> by (unfold Py.max; destruct (Rlt_dec _ _); lra).
  replace (-0.693 * 48 / 12.0) with (Ropp 2.772) by lra.
  rewrite exp_Ropp. apply Rinv_lt_contravar.
  - apply Rmult_lt_0_compat; [lra|apply exp_pos].
  - pose proof (exp_ineq1 2.772 ltac:(lra)). lra.
Qed.

End ScorerMore.

(** X1: an age at or below zero (a timestamp in the future) is scored as
    age zero, whatever the other arguments. *)
Theorem score_negative_age_clamped (source : string) (e c h ecap ccap : R) :
  h <= 0 ->
  compute_traction_score source e c h ecap ccap
  = compute_traction_score source e c 0 ecap ccap.
Proof.
  intros Hh. unfold compute_traction_score.
  by rewrite (py_max_0_of_nonpos h Hh), (py_max_0_of_nonpos 0 (Rle_refl 0)).
Qed.

Lemma score_negative_age_clamped_witness :
  compute_traction_score "reddit" 10 2 (-3) 5000 500
  = compute_traction_score "reddit" 10 2 0 5000 500.
Proof. apply score_negative_age_clamped. lra. Defined.

(** X2: the source weight fixes a band of width 85: with non-negative counts
    and positive caps the score lies between [15 * w] and [85 + 15 * w] for
    the weight [w] of the source, so it is never below 7.5, and only a
    source of weight 1 can reach 100. *)
Theorem score_within_source_band (source : string) (e c h ecap ccap : R) :
  0 <= e -> 0 <= c -> 0 < ecap -> 0 < ccap ->
  exists s,
    compute_traction_score source e c h ecap ccap = Ok s /\
    15 * source_weight source <= s <= 85 + 15 * source_weight source /\
    7.5 <= s.
Proof.
  intros He Hc Hecap Hccap.
  exists (Py.round (raw_score source e c h ecap ccap) 2).
  split; [apply compute_traction_score_eq; lra|].
  pose proof (norm_nonneg e ecap He Hecap).
  pose proof (norm_nonneg c ccap Hc Hccap).
  pose proof (norm_le_1 e ecap ltac:(lra) Hecap).
  pose proof (norm_le_1 c ccap ltac:(lra) Hccap).
  pose proof (recency_pos h). pose proof (recency_le_1 h).
  pose proof (source_weight_bounds source).
  assert (15 * source_weight source
          <= Py.round (raw_score source e c h ecap ccap) 2) as Hlo.
  { rewrite <- (round2_weight_floor source). apply round_mono.
    unfold raw_score. lra. }
  split; [split; [exact Hlo|]|lra].
  rewrite <- (round2_weight_ceiling source). apply round_mono.
  unfold raw_score. lra.
Qed.

Lemma score_within_source_band_witness :
  exists s,
    compute_traction_score "news" 0 0 5 5000 500 = Ok s /\
    15 * source_weight "news" <= s <= 85 + 15 * source_weight "news" /\
    7.5 <= s.
Proof. apply score_within_source_band; lra. Defined.

(** X3: the caps are not validated.  A cap of zero makes the call raise
    [ZeroDivisionError], a cap at or below [-1] makes it raise
    [ValueError]; the engagement pair is evaluated before the comments
    pair. *)
Theorem score_invalid_caps_raise :
  (forall source e c h ccap, -1 < e ->
     compute_traction_score source e c h 0 ccap = Raise ZeroDivisionError) /\
  (forall source e c h ecap ccap, ecap <= -1 ->
     compute_traction_score source e c h ecap ccap = Raise ValueError) /\
  (forall source e c h ecap, -1 < e -> 0 < ecap -> -1 < c ->
     compute_traction_score source e c h ecap 0 = Raise ZeroDivisionError) /\
  (forall source e c h ecap ccap, -1 < e -> 0 < ecap -> ccap <= -1 ->
     compute_traction_score source e c h ecap ccap = Raise ValueError).
Proof.
  assert (Py.log1p 0 = Ok 0) as Hlog0.
  { rewrite log1p_Ok by lra. by rewrite Rplus_0_r, ln_1. }
  assert (forall a, Py.div a 0 = Raise ZeroDivisionError) as Hdiv0.
  { intros a. unfold Py.div. by destruct (Req_dec_T _ _). }
  split; [|split; [|split]].
  - intros source e c h ccap He. unfold compute_traction_score.
    rewrite (log1p_Ok (Py.min e 0)) by (apply py_min_glb_lt; lra).
    by rewrite bind_Ok, Hlog0, bind_Ok, Hdiv0.
  - intros source e c h ecap ccap Hecap. unfold compute_traction_score.
    rewrite (log1p_Raise (Py.min e ecap)); [reflexivity|].
    pose proof (py_min_le_r e ecap). lra.
  - intros source e c h ecap He Hecap Hc. unfold compute_traction_score.
    pose proof (ln1p_cap_pos ecap Hecap).
    rewrite (log1p_Ok (Py.min e ecap)) by (apply py_min_glb_lt; lra).
    rewrite bind_Ok, (log1p_Ok ecap) by lra.
    rewrite bind_Ok, div_Ok by lra.
    rewrite bind_Ok, (log1p_Ok (Py.min c 0)) by (apply py_min_glb_lt; lra).
    by rewrite bind_Ok, Hlog0, bind_Ok, Hdiv0.
  - intros source e c h ecap ccap He Hecap Hccap.
    unfold compute_traction_score.
    pose proof (ln1p_cap_pos ecap Hecap).
    rewrite (log1p_Ok (Py.min e ecap)) by (apply py_min_glb_lt; lra).
    rewrite bind_Ok, (log1p_Ok ecap) by lra.
    rewrite bind_Ok, div_Ok by lra.
    rewrite bind_Ok, (log1p_Raise (Py.min c ccap)); [reflexivity|].
    pose proof (py_min_le_r c ccap). lra.
Qed.

Lemma score_invalid_caps_raise_witness :
  compute_traction_score "github" 40 3 1 0 2000 = Raise ZeroDivisionError /\
  compute_traction_score "github" 40 3 1 10000 (-1) = Raise ValueError.
Proof.
  destruct score_invalid_caps_raise as (Hzero & _ & _ & Hneg).
  split; [apply Hzero; lra|apply Hneg; lra].
Defined.

(** X4: recency is material.  With the other arguments fixed (counts above
    [-1], positive caps) an item that is at least 48 hours old scores more
    than 18 points below the same item at age zero. *)
Theorem score_two_days_decay (source : string) (e c h ecap ccap : R) :
  -1 < e -> -1 < c -> 0 < ecap -> 0 < ccap -> 48 <= h ->
  exists s0 sh,
    compute_traction_score source e c 0 ecap ccap = Ok s0 /\
    compute_traction_score source e c h ecap ccap = Ok sh /\
    18 < s0 - sh.
Proof.
  intros He Hc Hecap Hccap Hh.
  eexists _, _. rewrite !compute_traction_score_eq by lra.
  split; [done|split; [done|]].
  pose proof (round2_error (raw_score source e c 0 ecap ccap)) as H0.
  pose proof (round2_error (raw_score source e c h ecap ccap)) as H1.
  pose proof (recency_48_small h Hh) as Hrec.
  assert (/ 3.772 < 0.2652) as Hinv.
  { apply (Rmult_lt_reg_r 3.772); [lra|]. rewrite Rinv_l by lra. lra. }
  unfold raw_score in *. rewrite recency_0 in *. lra.
Qed.

Lemma score_two_days_decay_witness :
  exists s0 sh,
    compute_traction_score "hackernews" 100 50 0 5000 500 = Ok s0 /\
    compute_traction_score "hackernews" 100 50 48 5000 500 = Ok sh /\
    18 < s0 - sh.
Proof. apply score_two_days_decay; lra. Defined.

(** ** More on [deduplicate] *)

Section DedupMore.

Lemma deduplicate_snoc (pre : list item) (x : item) :
  deduplicate (pre ++ [x])
  = deduplicate pre
    ++ (if decide (Exists (collide x) (deduplicate pre)) then [] else [x]).
Proof.
  destruct (deduplicate_split pre [] x) as (rest & Heq & Hsub).
  apply sublist_nil_r in Hsub as ->. by rewrite app_nil_r in Heq.
Qed.

Lemma deduplicate_app_prefix (l1 l2 : list item) :
  deduplicate l1 `prefix_of` deduplicate (l1 ++ l2).
Proof.
  unfold deduplicate. rewrite dedup_loop_app.
  destruct (dedup_loop_extends l2 _ (dedup_loop_inv l1 _ dedup_inv_init))
    as (rest & Heq & _).
  exists rest. exact Heq.
Qed.

Lemma deduplicate_fixed (l : list item) :
  NoDup (get_url <$> l) -> NoDup (get_id <$> l) -> deduplicate l = l.
Proof.
  induction l as [|x l IH] using rev_ind; intros Hu Hi; [done|].
  rewrite fmap_app in Hu, Hi. simpl in Hu, Hi.
  apply NoDup_app in Hu as (Hu & Hux & _).
  apply NoDup_app in Hi as (Hi & Hix & _).
  rewrite deduplicate_snoc, (IH Hu Hi).
  destruct (decide (Exists (collide x) l)) as [Hex|_]; [|done].
  exfalso. apply Exists_exists in Hex as (y & Hy & [Hcol|Hcol]).
  - apply (Hux (get_url y)); [by apply list_elem_of_fmap_2|].
    rewrite Hcol. apply list_elem_of_singleton. done.
  - apply (Hix (get_id y)); [by apply list_elem_of_fmap_2|].
    rewrite Hcol. apply list_elem_of_singleton. done.
Qed.

End DedupMore.

(** X5: [deduplicate] leaves a list alone in which no url and no id occurs
    twice; in particular it is idempotent. *)
Theorem deduplicate_idempotent :
  (forall l, NoDup (get_url <$> l) -> NoDup (get_id <$> l) ->
     deduplicate l = l) /\
  (forall items, deduplicate (deduplicate items) = deduplicate items).
Proof.
  split; [apply deduplicate_fixed|].
  intros items. apply deduplicate_fixed;
    [apply deduplicate_NoDup_url|apply deduplicate_NoDup_id].
Qed.

Lemma deduplicate_idempotent_witness :
  let a := sample_item "a1" (Some "https://x.test/a") 50 in
  let b := sample_item "b2" (Some "https://x.test/b") 40 in
  deduplicate [a; b] = [a; b].
Proof.
  intros a b. destruct deduplicate_idempotent as [H _]. apply H.
  - apply NoDup_cons. split; [|apply NoDup_singleton].
    intros Hin. apply list_elem_of_singleton in Hin. discriminate.
  - apply NoDup_cons. split; [|apply NoDup_singleton].
    intros Hin. apply list_elem_of_singleton in Hin. discriminate.
Defined.

(** X6: nothing disappears without a representative: every input item has
    the url or the id of some retained item. *)
Theorem deduplicate_covers_input (items : list item) (x : item) :
  x ∈ items -> exists y, y ∈ deduplicate items /\ collide x y.
Proof.
  intros Hx. apply list_elem_of_split in Hx as (pre & post & ->).
  destruct (deduplicate_split pre post x) as (rest & -> & _).
  destruct (decide (Exists (collide x) (deduplicate pre))) as [Hex|_].
  - apply Exists_exists in Hex as (y & Hy & Hcol).
    exists y. split; [|done]. apply elem_of_app. by left.
  - exists x. split; [|by left].
    apply elem_of_app. right. apply elem_of_app. left.
    by apply list_elem_of_singleton.
Qed.

Lemma deduplicate_covers_input_witness :
  let a := sample_item "a1" (Some "https://x.test/a") 50 in
  let b := sample_item "b2" (Some "https://x.test/a") 40 in
  exists y, y ∈ deduplicate [a; b] /\ collide b y.
Proof.
  intros a b. apply deduplicate_covers_input.
  apply elem_of_cons. right. apply list_elem_of_singleton. reflexivity.
Defined.

(** X7: ingestion order is priority.  What is retained of a list does not
    change when more items are appended: the result for [l1] is a prefix of
    the result for [l1 ++ l2], and the result never grows longer than the
    input. *)
Theorem deduplicate_append_stable (l1 l2 : list item) :
  deduplicate l1 `prefix_of` deduplicate (l1 ++ l2) /\
  length (deduplicate (l1 ++ l2)) ≤ length l1 + length l2.
Proof.
  split; [apply deduplicate_app_prefix|].
  rewrite <- length_app. apply sublist_length, deduplicate_sublist.
Qed.

(** ** Per-source counts *)

Section Counts.

Lemma counts_total_insert_fresh (m : gmap string nat) (k : string) (n : nat) :
  m !! k = None -> counts_total (<[k:=n]> m) = (n + counts_total m)%nat.
Proof.
  intros Hk. unfold counts_total.
  rewrite map_fold_insert_L; [done| |done].
  intros. lia.
Qed.

Lemma counts_total_insert_present (m : gmap string nat) (k : string)
    (n0 n : nat) :
  m !! k = Some n0 ->
  (counts_total (<[k:=n]> m) + n0 = n + counts_total m)%nat.
Proof.
  intros Hk.
  rewrite <- (insert_delete_id m k n0 Hk) at 2.
  rewrite <- (insert_delete_eq m k n).
  rewrite !counts_total_insert_fresh by apply lookup_delete_eq. lia.
Qed.

Lemma count_source_total (m : gmap string nat) (it : item) :
  counts_total (count_source m it) = S (counts_total m).
Proof.
  unfold count_source. destruct (m !! item_source it) as [n0|] eqn:Hk; simpl.
  - pose proof (counts_total_insert_present m _ n0 (n0 + 1) Hk). lia.
  - rewrite counts_total_insert_fresh by done. lia.
Qed.

Lemma count_loop_total (l : list item) (m : gmap string nat) :
  counts_total (foldl count_source m l) = (counts_total m + length l)%nat.
Proof.
  revert m. induction l as [|it l IH]; intros m; simpl; [lia|].
  rewrite IH, count_source_total. lia.
Qed.

Lemma count_loop_lookup (l : list item) (m : gmap string nat) (s : string) :
  foldl count_source m l !! s
  = match length (filter (fun it => item_source it = s) l) with
    | O => m !! s
    | S n => Some (default 0 (m !! s) + S n)%nat
    end.
Proof.
  revert m. induction l as [|it l IH]; intros m; simpl; [done|].
  rewrite IH, filter_cons. unfold count_source.
  destruct (decide (item_source it = s)) as [->|Hne]; simpl.
  - rewrite lookup_insert_eq. simpl.
    destruct (length _); f_equal; lia.
  - by rewrite lookup_insert_ne.
Qed.

End Counts.

(** X8: the counting loop of [main] is a histogram of the sources: a source
    is a key exactly when some item has it, its count is the number of items
    with that source, and the counts add up to the number of items. *)
Theorem count_sources_histogram (all_items : list item) :
  (forall s,
     count_sources all_items !! s
     = match length (filter (fun it => item_source it = s) all_items) with
       | O => None
       | S n => Some (S n)
       end) /\
  counts_total (count_sources all_items) = length all_items.
Proof.
  split.
  - intros s. unfold count_sources. rewrite count_loop_lookup, lookup_empty.
    by destruct (length _).
  - unfold count_sources. rewrite count_loop_total. unfold counts_total.
    by rewrite map_fold_empty.
Qed.

(** ** The document [main] writes *)

Section Output.

Lemma stable_sort_fixed {A : Type} (after : A -> A -> bool) (l : list A) :
  StronglySorted (in_order after) l -> stable_sort after l = l.
Proof.
  induction 1 as [|x l _ IH Hall]; simpl; [done|].
  rewrite IH. destruct Hall as [|y l Hxy _]; simpl; [done|].
  unfold in_order in Hxy. by rewrite Hxy.
Qed.

Lemma sort_by_score_desc_fixed (l : list item) :
  StronglySorted (fun x y => get_score y <= get_score x) l ->
  sort_by_score_desc l = l.
Proof.
  intros Hs. apply stable_sort_fixed.
  eapply StronglySorted_weaken; [|exact Hs].
  intros x y Hxy. unfold in_order. rewrite bool_decide_eq_false. lra.
Qed.

Lemma rank_sorted (l : list item) :
  StronglySorted (fun x y => get_score y <= get_score x) (rank l).
Proof.
  pose proof (sort_by_score_desc_sorted l) as Hs.
  rewrite <- (rank_take_drop l) in Hs.
  by apply StronglySorted_app_1_l in Hs.
Qed.

Lemma rank_length (l : list item) :
  length (rank l) = Nat.min MAX_TOTAL_ITEMS (length l).
Proof.
  unfold rank.
  by rewrite length_take, (Permutation_length (sort_by_score_desc_perm l)).
Qed.

Lemma rank_fixed (l : list item) :
  StronglySorted (fun x y => get_score y <= get_score x) l ->
  length l ≤ MAX_TOTAL_ITEMS ->
  rank l = l.
Proof.
  intros Hs Hlen. unfold rank. rewrite sort_by_score_desc_fixed by done.
  by apply take_ge.
Qed.

Lemma rank_elem_of (l : list item) (x : item) : x ∈ rank l -> x ∈ l.
Proof.
  intros Hx. rewrite <- (sort_by_score_desc_perm l).
  eapply elem_of_sublist; [exact Hx|apply sublist_take].
Qed.

Lemma rank_NoDup_key {K : Type} (f : item -> K) (l : list item) :
  NoDup (f <$> l) -> NoDup (f <$> rank l).
Proof.
  intros Hnd. apply (sublist_NoDup _ (f <$> sort_by_score_desc l)).
  - by rewrite (sort_by_score_desc_perm l).
  - apply fmap_sublist, sublist_take.
Qed.

Lemma py_max_list_head (x : R) (l : list R) :
  Forall (fun y => y <= x) l -> py_max_list x l = x.
Proof.
  induction 1 as [|y l Hy _ IH]; simpl; [done|].
  assert (Py.max x y = x) as ->; [|exact IH].
  unfold Py.max. destruct (Rlt_dec _ _); [lra|done].
Qed.

Lemma compute_stats_is_Some (l : list item) : is_Some (compute_stats l).
Proof.
  destruct l as [|x l]; [by eexists|].
  set (scores := get_score <$> x :: l).
  assert (scores <> []) as Hne by done.
  assert (0 < length scores)%nat as Hn by (subst scores; simpl; lia).
  destruct (sorted_lookup_lt scores (length scores * 3 / 4)) as [p75 H75].
  { apply Nat.Div0.div_lt_upper_bound. lia. }
  destruct (sorted_lookup_lt scores (length scores * 9 / 10)) as [p90 H90].
  { apply Nat.Div0.div_lt_upper_bound. lia. }
  rewrite compute_stats_cons. fold scores.
  rewrite (percentile_075 scores Hne), (percentile_090 scores Hne).
  rewrite H75, H90. by eexists.
Qed.

Lemma main_output_items (all_items : list item) (out : output) :
  main_output all_items = Some out ->
  out_items out = rank (deduplicate all_items) /\
  out_total_items out = length (out_items out) /\
  out_sources out = count_sources (out_items out) /\
  compute_stats (out_items out) = Some (out_traction_stats out).
Proof.
  unfold main_output. intros Hout.
  destruct (compute_stats (rank (deduplicate all_items))) as [st|] eqn:Hst;
    [|discriminate].
  simpl in Hout. by simplify_eq.
Qed.

End Output.

(** X9: [main] always produces a document.  Its ["total_items"] is the
    length of its item list, at most 200 and at most the number of fetched
    items; no url and no id occurs twice among its items; every item was
    fetched; the per-source counts add up to ["total_items"].  With nothing
    fetched the document is empty with all statistics zero. *)
Theorem main_output_well_formed :
  (forall all_items,
     exists out,
       main_output all_items = Some out /\
       out_total_items out = length (out_items out) /\
       out_total_items out ≤ 200 /\
       out_total_items out ≤ length all_items /\
       NoDup (get_url <$> out_items out) /\
       NoDup (get_id <$> out_items out) /\
       (forall x, x ∈ out_items out -> x ∈ all_items) /\
       counts_total (out_sources out) = out_total_items out) /\
  main_output []
  = Some {| out_total_items := 0;
            out_sources := ∅;
            out_traction_stats :=
              {| max_score := 0; p90_score := 0; p75_score := 0 |};
            out_items := [] |}.
Proof.
  split; [|reflexivity]. intros all_items.
  destruct (compute_stats_is_Some (rank (deduplicate all_items))) as [st Hst].
  eexists. split.
  { unfold main_output. rewrite Hst. reflexivity. }
  simpl. pose proof (rank_length (deduplicate all_items)) as Hlen.
  pose proof (sublist_length _ _ (deduplicate_sublist all_items)) as Hdl.
  unfold MAX_TOTAL_ITEMS in Hlen.
  split; [done|]. split; [lia|]. split; [lia|].
  split; [apply rank_NoDup_key, deduplicate_NoDup_url|].
  split; [apply rank_NoDup_key, deduplicate_NoDup_id|].
  split.
  - intros x Hx. apply rank_elem_of in Hx.
    eapply elem_of_sublist; [exact Hx|apply deduplicate_sublist].
  - unfold count_sources. rewrite count_loop_total. unfold counts_total.
    by rewrite map_fold_empty.
Qed.

(** X10: the item list of the document is a fixed point of the pipeline:
    deduplicating and ranking it again changes nothing, and [main] run on
    it writes the same document. *)
Theorem main_output_idempotent (all_items : list item) :
  rank (deduplicate (rank (deduplicate all_items)))
  = rank (deduplicate all_items) /\
  main_output (rank (deduplicate all_items)) = main_output all_items.
Proof.
  assert (rank (deduplicate (rank (deduplicate all_items)))
          = rank (deduplicate all_items)) as Hfix.
  { rewrite (deduplicate_fixed (rank (deduplicate all_items))).
    - apply rank_fixed; [apply rank_sorted|].
      rewrite rank_length. lia.
    - apply rank_NoDup_key, deduplicate_NoDup_url.
    - apply rank_NoDup_key, deduplicate_NoDup_id. }
  split; [exact Hfix|]. unfold main_output. by rewrite Hfix.
Qed.

(** X11: ["max_score"] is read off the head of the ranking: when the
    document has items, its maximum is the score of the first item, and no
    item scores higher. *)
Theorem max_score_is_first_item
    (all_items : list item) (out : output) (x : item) (rest : list item) :
  main_output all_items = Some out ->
  out_items out = x :: rest ->
  max_score (out_traction_stats out) = get_score x /\
  (forall y, y ∈ out_items out -> get_score y <= get_score x).
Proof.
  intros Hout Hitems.
  destruct (main_output_items all_items out Hout) as (Hrank & _ & _ & Hst).
  pose proof (rank_sorted (deduplicate all_items)) as Hs.
  rewrite <- Hrank, Hitems in Hs. apply StronglySorted_cons in Hs as [Hall _].
  rewrite Hitems, compute_stats_cons in Hst.
  destruct (percentile _ 0.75) as [p75|]; [|discriminate].
  destruct (percentile _ 0.90) as [p90|]; [|discriminate].
  simpl in Hst. injection Hst as <-. simpl. split.
  - apply py_max_list_head. apply Forall_fmap.
    eapply Forall_impl; [exact Hall|]. by intros y Hy.
  - intros y Hy. rewrite Hitems in Hy.
    apply elem_of_cons in Hy as [->|Hy]; [lra|].
    rewrite Forall_forall in Hall. by apply Hall.
Qed.

Lemma max_score_is_first_item_witness :
  let a := sample_item "a" (Some "u1") 50 in
  exists out,
    main_output [a] = Some out /\
    max_score (out_traction_stats out) = get_score a.
Proof.
  intros a.
  assert (rank (deduplicate [a]) = [a]) as Hrank by reflexivity.
  destruct (compute_stats_is_Some [a]) as [st Hst].
  assert (main_output [a]
          = Some {| out_total_items := 1;
                    out_sources := count_sources [a];
                    out_traction_stats := st;
                    out_items := [a] |}) as Hout.
  { unfold main_output. rewrite Hrank, Hst. reflexivity. }
  eexists. split; [exact Hout|].
  by apply (max_score_is_first_item [a] _ a [] Hout).
Defined.

Section PercentileRank.

#[local] Instance Rle_antisymm : AntiSymm (=) Rle.
Proof. intros x y. apply Rle_antisym. Qed.

Lemma ascending_reverse (l : list R) :
  StronglySorted (fun a b => b <= a) l -> StronglySorted Rle (reverse l).
Proof.
  induction 1 as [|x l _ IH Hall]; [constructor|].
  rewrite reverse_cons. apply StronglySorted_app_2; [|done|repeat constructor].
  intros a b Ha Hb. apply list_elem_of_singleton in Hb as ->.
  rewrite elem_of_reverse in Ha. rewrite Forall_forall in Hall. by apply Hall.
Qed.

(** Sorting a non-increasing list of scores in ascending order reverses
    it. *)
Lemma sorted_of_descending (scores : list R) :
  StronglySorted (fun a b => b <= a) scores -> sorted scores = reverse scores.
Proof.
  intros Hs. apply (StronglySorted_unique Rle).
  - apply sorted_ascending.
  - by apply ascending_reverse.
  - by rewrite sorted_perm, reverse_Permutation.
Qed.

Lemma rank_scores_descending (l : list item) :
  StronglySorted (fun a b => b <= a) (get_score <$> rank l).
Proof.
  apply (StronglySorted_fmap get_score
           (fun x y => get_score y <= get_score x)); [done|].
  apply rank_sorted.
Qed.

End PercentileRank.

(** X12: the percentiles are positions in the ranking.  In a document with
    [n >= 1] items, ["p75_score"] is the score of the item at index
    [n - 1 - floor(0.75 n)] of the ranked list and ["p90_score"] the score
    of the item at index [n - 1 - floor(0.90 n)] (for 200 items: the 50th
    and the 20th item). *)
Theorem percentiles_are_rank_positions
    (all_items : list item) (out : output) :
  main_output all_items = Some out ->
  out_items out <> [] ->
  let n := length (out_items out) in
  get_score <$> out_items out !! (n - 1 - n * 3 / 4)%nat
  = Some (p75_score (out_traction_stats out)) /\
  get_score <$> out_items out !! (n - 1 - n * 9 / 10)%nat
  = Some (p90_score (out_traction_stats out)).
Proof.
  intros Hout Hne n.
  destruct (main_output_items all_items out Hout) as (Hrank & _ & _ & Hst).
  pose proof (rank_scores_descending (deduplicate all_items)) as Hdesc.
  rewrite <- Hrank in Hdesc.
  set (scores := get_score <$> out_items out) in *.
  assert (length scores = n) as Hlen by (subst scores n; apply length_fmap).
  assert (0 < n)%nat as Hn.
  { subst n. destruct (out_items out); [done|simpl; lia]. }
  assert (n * 3 / 4 < n)%nat as H75 by (apply Nat.Div0.div_lt_upper_bound; lia).
  assert (n * 9 / 10 < n)%nat as H90 by (apply Nat.Div0.div_lt_upper_bound; lia).
  destruct (out_items out) as [|x rest] eqn:Hitems; [done|].
  rewrite compute_stats_cons in Hst. fold scores in Hst.
  rewrite (percentile_075 scores), (percentile_090 scores) in Hst by done.
  rewrite (sorted_of_descending scores Hdesc), Hlen in Hst.
  rewrite !reverse_lookup in Hst by lia. rewrite Hlen in Hst.
  rewrite <- !list_lookup_fmap.
  replace (n - 1 - n * 3 / 4)%nat with (n - S (n * 3 / 4))%nat by lia.
  replace (n - 1 - n * 9 / 10)%nat with (n - S (n * 9 / 10))%nat by lia.
  fold scores.
  destruct (scores !! (n - S (n * 3 / 4))%nat) as [p75|]; [|discriminate].
  destruct (scores !! (n - S (n * 9 / 10))%nat) as [p90|]; [|discriminate].
  simpl in Hst. by injection Hst as <-.
Qed.

Lemma percentiles_are_rank_positions_witness :
  let a := sample_item "a" (Some "u1") 50 in
  exists out,
    main_output [a] = Some out /\
    Some (get_score a) = Some (p75_score (out_traction_stats out)) /\
    Some (get_score a) = Some (p90_score (out_traction_stats out)).
Proof.
  intros a.
  assert (rank (deduplicate [a]) = [a]) as Hrank by reflexivity.
  destruct (compute_stats_is_Some [a]) as [st Hst].
  assert (main_output [a]
          = Some {| out_total_items := 1;
                    out_sources := count_sources [a];
                    out_traction_stats := st;
                    out_items := [a] |}) as Hout.
  { unfold main_output. rewrite Hrank, Hst. reflexivity. }
  eexists. split; [exact Hout|].
  apply (percentiles_are_rank_positions [a] _ Hout). discriminate.
Defined.

(** ** [strip_html]: the tag pass *)

Section HtmlTags.
Context {C : Charset} {Laws : CharsetLaws C}.

Lemma space_ne_lt : char_space <> char_lt.
Proof.
  intros Heq. pose proof space_isspace as Hs. rewrite Heq, lt_not_space in Hs.
  discriminate.
Qed.

Lemma space_ne_gt : char_space <> char_gt.
Proof.
  intros Heq. pose proof space_isspace as Hs. rewrite Heq, gt_not_space in Hs.
  discriminate.
Qed.

Lemma tag_free_no_gt (text : list char) :
  char_gt ∉ text -> Html.tag_free text.
Proof.
  induction text as [|c rest IH]; intros Hgt; simpl; [done|].
  apply not_elem_of_cons in Hgt as [_ Hgt]. split; [by right|by apply IH].
Qed.

Lemma sub_tags_open_tag_free (text : list char) :
  Html.tag_free (Html.sub_tags text) /\
  (forall body, char_gt ∉ body -> Html.tag_free (Html.open_tag body text)).
Proof.
  induction text as [|c rest [IHout IHin]]; simpl.
  - split; [done|]. intros body Hbody. split; [by right|].
    by apply tag_free_no_gt.
  - split.
    + destruct (decide (c = char_lt)) as [->|Hc].
      * apply IHin. apply not_elem_of_nil.
      * simpl. split; [done|exact IHout].
    + intros body Hbody. destruct (decide (c = char_gt)) as [->|Hc].
      * destruct body as [|b body]; simpl.
        -- split; [by left|]. split; [|exact IHout].
           intros Heq. by destruct (lt_ne_gt).
        -- split; [|exact IHout]. intros Heq. by destruct space_ne_lt.
      * apply IHin. rewrite not_elem_of_app. split; [done|].
        rewrite list_elem_of_singleton. congruence.
Qed.

Lemma tag_free_not_has_tag (text : list char) :
  Html.tag_free text -> ~ Html.has_tag text.
Proof.
  intros Hfree (pre & body & post & -> & Hne & Hgt).
  induction pre as [|c pre IH]; simpl in Hfree.
  - destruct Hfree as [Hlt _]. destruct (Hlt eq_refl) as [Hhead|Hnone].
    + destruct body as [|b body]; [done|]. simpl in Hhead.
      injection Hhead as ->. apply Hgt. left.
    + apply Hnone. apply elem_of_app. right. left.
  - apply IH. by destruct Hfree.
Qed.

Lemma open_tag_no_gt (body text : list char) :
  char_gt ∉ text -> Html.open_tag body text = char_lt :: body ++ text.
Proof.
  revert body. induction text as [|c rest IH]; intros body Hgt; simpl.
  - by rewrite app_nil_r.
  - apply not_elem_of_cons in Hgt as [Hc Hgt].
    destruct (decide (c = char_gt)) as [->|_]; [done|].
    by rewrite IH, <- app_assoc.
Qed.

Lemma open_tag_close (body mid post : list char) :
  char_gt ∉ mid ->
  Html.open_tag body (mid ++ char_gt :: post)
  = match body ++ mid with
    | [] => char_lt :: char_gt :: Html.sub_tags post
    | _ :: _ => char_space :: Html.sub_tags post
    end.
Proof.
  revert body. induction mid as [|c mid IH]; intros body Hgt; simpl.
  - rewrite decide_True by done. rewrite app_nil_r. by destruct body.
  - apply not_elem_of_cons in Hgt as [Hc Hgt].
    rewrite decide_False by done. rewrite IH by done.
    by rewrite <- app_assoc.
Qed.

Lemma sub_tags_app_no_lt (pre text : list char) :
  char_lt ∉ pre -> Html.sub_tags (pre ++ text) = pre ++ Html.sub_tags text.
Proof.
  induction pre as [|c pre IH]; intros Hlt; simpl; [done|].
  apply not_elem_of_cons in Hlt as [Hc Hlt].
  rewrite decide_False by done. by rewrite IH.
Qed.

Lemma sub_tags_fixed (text : list char) :
  Html.tag_free text -> Html.sub_tags text = text.
Proof.
  induction text as [|c rest IH]; [done|]. intros [Hlt Hrest].
  specialize (IH Hrest). simpl.
  destruct (decide (c = char_lt)) as [->|Hc]; [|by rewrite IH].
  destruct (Hlt eq_refl) as [Hhead|Hnone].
  - destruct rest as [|d rest]; [done|]. simpl in Hhead.
    injection Hhead as ->. simpl. rewrite decide_True by done.
    simpl in IH. rewrite decide_False in IH by (symmetry; apply lt_ne_gt).
    by injection IH as ->.
  - by rewrite open_tag_no_gt.
Qed.

End HtmlTags.

(** ** [strip_html]: the whitespace pass and the cut *)

Section HtmlSpace.
Context {C : Charset} {Laws : CharsetLaws C}.

Lemma split_from_words_nonempty (word text : list char) :
  Forall (fun w => w <> []) (Html.split_from word text).
Proof.
  revert word. induction text as [|c rest IH]; intros word; simpl.
  - destruct word; [constructor|]. by repeat constructor.
  - destruct (isspace c); [|apply IH].
    destruct word; [apply IH|]. constructor; [done|apply IH].
Qed.

Lemma join_nil_inv (sep : list char) (words : list (list char)) :
  Forall (fun w => w <> []) words -> Html.join sep words = [] -> words = [].
Proof.
  intros Hne Hjoin. destruct words as [|w ws]; [done|].
  apply Forall_cons in Hne as [Hw _]. simpl in Hjoin.
  destruct ws; [done|]. by destruct w.
Qed.

Lemma collapse_gap (text : list char) :
  Html.collapse Html.Gap text
  = match Html.collapse Html.Start text with
    | [] => []
    | c :: out => char_space :: c :: out
    end.
Proof.
  induction text as [|c rest IH]; simpl; [done|].
  by destruct (isspace c).
Qed.

Lemma join_split_from (word text : list char) :
  Html.join [char_space] (Html.split_from word text)
  = word ++ Html.collapse
              (match word with [] => Html.Start | _ :: _ => Html.InWord end)
              text.
Proof.
  revert word. induction text as [|c rest IH]; intros word; simpl.
  - destruct word; [done|]. simpl. by rewrite app_nil_r.
  - destruct (isspace c) eqn:Hc.
    + destruct word as [|b word]; [apply IH|].
      pose proof (IH []) as IH0. simpl in IH0.
      pose proof (split_from_words_nonempty [] rest) as Hne.
      rewrite collapse_gap, <- IH0.
      destruct (Html.split_from [] rest) as [|w ws] eqn:Hsplit.
      * simpl. by rewrite app_nil_r.
      * change (Html.join [char_space] ((b :: word) :: w :: ws))
          with ((b :: word) ++ [char_space] ++ Html.join [char_space] (w :: ws)).
        destruct (Html.join [char_space] (w :: ws)) as [|d out] eqn:Hjoin;
          [|done].
        by apply join_nil_inv in Hjoin.
    + rewrite IH. destruct word; simpl; [done|].
      by rewrite <- app_assoc.
Qed.

(** [" ".join(text.split())] is the one-scan form started before the first
    word. *)
Lemma join_split (text : list char) :
  Html.join [char_space] (Html.split text) = Html.collapse Html.Start text.
Proof. unfold Html.split. by rewrite join_split_from. Qed.

Lemma collapse_elem_of (st : Html.scan_state) (text : list char) (c : char) :
  c ∈ Html.collapse st text -> c ∈ text \/ c = char_space.
Proof.
  revert st. induction text as [|d rest IH]; intros st Hc; simpl in Hc.
  - by apply elem_of_nil in Hc.
  - destruct (isspace d).
    + destruct st; apply IH in Hc as [Hc|Hc]; auto using list_elem_of_further.
    + destruct st;
        repeat (apply elem_of_cons in Hc as [->|Hc]; [auto using list_elem_of_here|]);
        apply IH in Hc as [Hc|Hc]; auto using list_elem_of_further.
Qed.

Lemma collapse_no_gt (st : Html.scan_state) (text : list char) :
  char_gt ∉ text -> char_gt ∉ Html.collapse st text.
Proof.
  intros Hgt Hin. apply collapse_elem_of in Hin as [Hin|Heq]; [done|].
  by destruct space_ne_gt.
Qed.

End HtmlSpace.

Section HtmlInvariants.
Context {C : Charset} {Laws : CharsetLaws C}.

Lemma collapse_tag_free (st : Html.scan_state) (text : list char) :
  Html.tag_free text -> Html.tag_free (Html.collapse st text).
Proof.
  revert st. induction text as [|c rest IH]; intros st Hfree; [done|].
  destruct Hfree as [Hlt Hrest]. simpl. destruct (isspace c) eqn:Hc.
  { destruct st; by apply IH. }
  assert (Html.tag_free (c :: Html.collapse Html.InWord rest)) as Hword.
  { split; [|by apply IH]. intros Heq.
    destruct (Hlt Heq) as [Hhead|Hnone].
    - left. destruct rest as [|d rest]; [done|]. simpl in Hhead.
      injection Hhead as ->. simpl. by rewrite gt_not_space.
    - right. by apply collapse_no_gt. }
  destruct st; try exact Hword.
  split; [|exact Hword]. intros Heq. by destruct space_ne_lt.
Qed.

Lemma collapse_spaced (text : list char) :
  Html.spaced true (Html.collapse Html.Start text) /\
  Html.spaced false (Html.collapse Html.InWord text) /\
  Html.spaced false (Html.collapse Html.Gap text).
Proof.
  induction text as [|c rest (IHs & IHw & IHg)]; simpl; [done|].
  destruct (isspace c) eqn:Hc; [done|]. simpl. rewrite Hc, space_isspace.
  repeat split; try done; congruence.
Qed.

Lemma take_tag_free (n : nat) (text : list char) :
  Html.tag_free text -> Html.tag_free (take n text).
Proof.
  revert n. induction text as [|c rest IH]; intros n Hfree.
  - by rewrite take_nil.
  - destruct n as [|n]; [done|]. destruct Hfree as [Hlt Hrest]. simpl.
    split; [|by apply IH]. intros Heq.
    destruct (Hlt Heq) as [Hhead|Hnone].
    + destruct n as [|n]; [right; apply not_elem_of_nil|].
      left. destruct rest; [done|]. exact Hhead.
    + right. intros Hin. apply Hnone.
      eapply elem_of_sublist; [exact Hin|apply sublist_take].
Qed.

Lemma take_spaced (n : nat) (prev : bool) (text : list char) :
  Html.spaced prev text -> Html.spaced prev (take n text).
Proof.
  revert n prev. induction text as [|c rest IH]; intros n prev Hsp.
  - by rewrite take_nil.
  - destruct n as [|n]; [done|]. destruct Hsp as [Hc Hrest]. simpl.
    split; [done|by apply IH].
Qed.

Lemma slice_to_take {A : Type} (l : list A) (k : Z) :
  exists n, Html.slice_to l k = take n l /\ ((0 <= k)%Z -> n = Z.to_nat k).
Proof.
  unfold Html.slice_to. destruct (decide (0 <= k)%Z); eexists; split; done.
Qed.

Lemma spaced_only_space (prev : bool) (text : list char) (c : char) :
  Html.spaced prev text -> c ∈ text -> isspace c = true -> c = char_space.
Proof.
  revert prev. induction text as [|d rest IH]; intros prev Hsp Hin Hc.
  - by apply elem_of_nil in Hin.
  - destruct Hsp as [Hd Hrest].
    apply elem_of_cons in Hin as [->|Hin]; [by apply Hd|].
    by apply (IH (isspace d)).
Qed.

Lemma spaced_no_double (prev : bool) (pre post : list char) (c d : char) :
  Html.spaced prev (pre ++ c :: d :: post) ->
  isspace c = true -> isspace d = false.
Proof.
  revert prev. induction pre as [|b pre IH]; intros prev Hsp Hc.
  - destruct Hsp as (_ & Hd & _). destruct (isspace d) eqn:Hdsp; [|done].
    destruct (Hd eq_refl) as [_ Hprev]. congruence.
  - destruct Hsp as [_ Hrest]. by apply (IH (isspace b)).
Qed.

(** What [strip_html] returns for a non-empty text: a cut of the one-scan
    form of the text without entities and tags. *)
Lemma strip_html_take (text : list char) (max_len : Z) :
  exists n,
    Html.strip_html text max_len
    = take n (Html.collapse Html.Start (Html.sub_tags (unescape text))) /\
    ((0 <= max_len)%Z -> length (Html.strip_html text max_len) ≤ Z.to_nat max_len).
Proof.
  destruct text as [|c text].
  - exists 0%nat. split; [by rewrite take_0|]. simpl. lia.
  - unfold Html.strip_html. rewrite join_split.
    destruct (slice_to_take
                (Html.collapse Html.Start (Html.sub_tags (unescape (c :: text))))
                max_len) as (n & -> & Hn).
    exists n. split; [done|]. intros Hk. rewrite length_take, (Hn Hk). lia.
Qed.

End HtmlInvariants.

#[global] Instance ascii_charset_laws : CharsetLaws ascii_charset.
Proof. constructor; try reflexivity. discriminate. Qed.

Example strip_html_small :
  Html.strip_html (C := ascii_charset)
    (list_ascii_of_string "<p>Rust  1.80 <b>released</b></p> today") 300
  = list_ascii_of_string "Rust 1.80 released today".
Proof. vm_compute. reflexivity. Qed.

(** The cut comes last, so it can leave a space at the end. *)
Example strip_html_cut_leaves_space :
  Html.strip_html (C := ascii_charset) (list_ascii_of_string "ab cd") 3
  = list_ascii_of_string "ab ".
Proof. vm_compute. reflexivity. Qed.

(** X13: no markup leaves [strip_html]: whatever the text and the length
    limit, the result contains no match of the tag pattern [<[^>]+>]. *)
Theorem strip_html_has_no_tag `{C : Charset} `{!CharsetLaws C}
    (text : list char) (max_len : Z) :
  ~ Html.has_tag (Html.strip_html text max_len).
Proof.
  destruct (strip_html_take text max_len) as (n & -> & _).
  apply tag_free_not_has_tag, take_tag_free, collapse_tag_free.
  apply sub_tags_open_tag_free.
Qed.

Lemma strip_html_has_no_tag_witness :
  ~ Html.has_tag
      (Html.strip_html (C := ascii_charset)
         (list_ascii_of_string "a <i>b</i> c") 300).
Proof. apply strip_html_has_no_tag. Defined.

(** X14: the result of [strip_html] is bounded and whitespace-normal: for a
    limit [max_len >= 0] it has at most [max_len] characters; it does not
    start with whitespace; no two whitespace characters are adjacent; and
    the only whitespace character in it is the space. *)
Theorem strip_html_normal_form `{C : Charset} `{!CharsetLaws C}
    (text : list char) (max_len : Z) :
  let out := Html.strip_html text max_len in
  ((0 <= max_len)%Z -> length out ≤ Z.to_nat max_len) /\
  (forall c, head out = Some c -> isspace c = false) /\
  (forall pre c d post,
     out = pre ++ c :: d :: post -> isspace c = true -> isspace d = false) /\
  (forall c, c ∈ out -> isspace c = true -> c = char_space).
Proof.
  intros out. subst out.
  destruct (strip_html_take text max_len) as (n & Heq & Hlen).
  assert (Html.spaced true (Html.strip_html text max_len)) as Hsp.
  { rewrite Heq. apply take_spaced, collapse_spaced. }
  split; [exact Hlen|]. split; [|split].
  - intros c Hhead. destruct (Html.strip_html text max_len) as [|d out]; [done|].
    simpl in Hhead. injection Hhead as ->. destruct Hsp as [Hc _].
    destruct (isspace c); [|done]. by destruct (Hc eq_refl).
  - intros pre c d post Hout. rewrite Hout in Hsp.
    by apply (spaced_no_double true pre post c d).
  - intros c. by apply (spaced_only_space true).
Qed.

Lemma strip_html_normal_form_witness :
  length (Html.strip_html (C := ascii_charset)
            (list_ascii_of_string "a <i>b</i> c") 4) ≤ 4.
Proof.
  destruct (strip_html_normal_form (C := ascii_charset)
              (list_ascii_of_string "a <i>b</i> c") 4) as [Hlen _].
  apply Hlen. lia.
Defined.

(** X15: the tag pass replaces a tag by one space and touches nothing
    else: the leftmost tag [<body>], with [body] non-empty and free of
    ['>'], becomes a space and the scan goes on behind it; a text in which
    every ['<'] is directly followed by ['>'] or has no ['>'] after it comes
    back unchanged; so the pass is idempotent. *)
Theorem sub_tags_replaces_tags `{C : Charset} `{!CharsetLaws C} :
  (forall pre body post,
     char_lt ∉ pre -> body <> [] -> char_gt ∉ body ->
     Html.sub_tags (pre ++ char_lt :: body ++ char_gt :: post)
     = pre ++ char_space :: Html.sub_tags post) /\
  (forall text, Html.tag_free text -> Html.sub_tags text = text) /\
  (forall text, Html.sub_tags (Html.sub_tags text) = Html.sub_tags text).
Proof.
  split; [|split].
  - intros pre body post Hpre Hne Hbody.
    rewrite sub_tags_app_no_lt by done. f_equal. simpl.
    rewrite decide_True by done. rewrite open_tag_close by done.
    simpl. by destruct body.
  - apply sub_tags_fixed.
  - intros text. apply sub_tags_fixed, sub_tags_open_tag_free.
Qed.

Lemma sub_tags_replaces_tags_witness :
  Html.sub_tags (C := ascii_charset)
    (list_ascii_of_string "a " ++ "<"%char :: list_ascii_of_string "br/"
       ++ ">"%char :: list_ascii_of_string " b")
  = list_ascii_of_string "a " ++ " "%char
      :: Html.sub_tags (C := ascii_charset) (list_ascii_of_string " b").
Proof.
  destruct (sub_tags_replaces_tags (C := ascii_charset)) as [H _].
  apply (H (list_ascii_of_string "a ") (list_ascii_of_string "br/")
           (list_ascii_of_string " b")).
  - intros Hin. repeat (apply elem_of_cons in Hin as [Hin|Hin]; [discriminate|]).
    by apply elem_of_nil in Hin.
  - discriminate.
  - intros Hin. repeat (apply elem_of_cons in Hin as [Hin|Hin]; [discriminate|]).
    by apply elem_of_nil in Hin.
Defined.

(** ** Items built from feed entries *)

Section RssItems.
Context {L : Runtime} {Laws : RuntimeLaws L}.

Lemma news_score (age_h : R) :
  exists s,
    compute_traction_score_default "news" 0 0 age_h = Ok s /\
    8.25 <= s <= 33.25.
Proof.
  unfold compute_traction_score_default, default_engagement_cap,
    default_comments_cap.
  rewrite compute_traction_score_eq by lra. eexists. split; [done|].
  unfold raw_score. rewrite !norm_0 by lra.
  assert (source_weight "news" = 0.55) as -> by reflexivity.
  pose proof (recency_pos age_h). pose proof (recency_le_1 age_h).
  split.
  - rewrite <- (round2_hundredths 825 8.25) at 1 by lra.
    apply round_mono. lra.
  - rewrite <- (round2_hundredths 3325 33.25) by lra.
    apply round_mono. lra.
Qed.

(** Once the date is known the item is determined up to its score. *)
Lemma rss_item_of_date (now : string) (entry : rss_entry) (iso : string) :
  parse_date now (entry_published entry) = Ok iso ->
  exists s,
    8.25 <= s <= 33.25 /\
    rss_item now entry
    = Ok {| item_id := Some (make_id "news" (entry_link entry));
            item_source := "news";
            item_type := "article";
            item_title := entry_title entry;
            item_summary := strip_html (entry_summary entry);
            item_url := Some (entry_link entry);
            item_author := entry_author entry;
            item_date := iso;
            item_traction_score := Some s |}.
Proof.
  intros Hiso. destruct (news_score (hours_ago iso)) as (s & Hs & Hband).
  exists s. split; [exact Hband|].
  unfold rss_item. by rewrite Hiso, bind_Ok, Hs, bind_Ok.
Qed.

End RssItems.

(** X16: every feed entry yields an item, and a news item is confined to
    the band from 8.25 to 33.25: its source is ["news"], its url is the
    entry's link, its id is derived from that link, its date is what
    [parse_date] returns for the published field, and its score, computed
    without engagement or comments, lies between 8.25 and 33.25. *)
Theorem rss_item_news_band `{L : Runtime} `{!RuntimeLaws L}
    (now : string) (entry : rss_entry) :
  exists it iso,
    rss_item now entry = Ok it /\
    parse_date now (entry_published entry) = Ok iso /\
    item_date it = iso /\
    item_source it = "news" /\
    item_url it = Some (entry_link entry) /\
    item_id it = Some (make_id "news" (entry_link entry)) /\
    8.25 <= get_score it <= 33.25.
Proof.
  destruct (parse_date_returns now (entry_published entry)) as [iso Hiso].
  destruct (rss_item_of_date now entry iso Hiso) as (s & Hband & Hitem).
  eexists _, iso. split; [exact Hitem|]. split; [exact Hiso|].
  simpl. unfold get_score. simpl.
  split; [done|]. split; [done|]. split; [done|]. split; [done|exact Hband].
Qed.

Lemma rss_item_news_band_witness :
  exists it iso,
    rss_item (L := compact_runtime) "2026-11-03T12:00:00+00:00"
      (mk_rss_entry "t" "s" "https://x.test/a" "20260101" "me") = Ok it /\
    parse_date (L := compact_runtime) "2026-11-03T12:00:00+00:00" "20260101"
    = Ok iso /\
    item_date it = iso /\
    item_source it = "news" /\
    item_url it = Some "https://x.test/a" /\
    item_id it = Some (make_id (Runtime := compact_runtime)
                         "news" "https://x.test/a") /\
    8.25 <= get_score it <= 33.25.
Proof.
  apply (rss_item_news_band (L := compact_runtime)
           "2026-11-03T12:00:00+00:00"
           (mk_rss_entry "t" "s" "https://x.test/a" "20260101" "me")).
Defined.

(** X17: the same article from two feeds is kept once: when two entries
    carry the same link, [deduplicate] retains only the item of the first
    one, whatever their dates and the clock readings. *)
Theorem rss_same_link_deduplicated `{L : Runtime} `{!RuntimeLaws L}
    (now1 now2 : string) (e1 e2 : rss_entry) (it1 it2 : item) :
  rss_item now1 e1 = Ok it1 ->
  rss_item now2 e2 = Ok it2 ->
  entry_link e1 = entry_link e2 ->
  deduplicate [it1; it2] = [it1].
Proof.
  intros H1 H2 Hlink.
  destruct (parse_date_returns now1 (entry_published e1)) as [iso1 Hiso1].
  destruct (parse_date_returns now2 (entry_published e2)) as [iso2 Hiso2].
  destruct (rss_item_of_date now1 e1 iso1 Hiso1) as (s1 & _ & H1').
  destruct (rss_item_of_date now2 e2 iso2 Hiso2) as (s2 & _ & H2').
  rewrite H1 in H1'. rewrite H2 in H2'.
  injection H1' as ->. injection H2' as ->.
  match goal with
  | |- deduplicate [?a; ?b] = _ =>
      change [a; b] with ([a] ++ [b]); rewrite deduplicate_snoc;
      change (deduplicate [a]) with [a]
  end.
  rewrite decide_True; [done|].
  apply Exists_cons. left. left. unfold get_url. simpl. by rewrite Hlink.
Qed.

Lemma rss_same_link_deduplicated_witness :
  let now := "2026-11-03T12:00:00+00:00" in
  let e1 := mk_rss_entry "t1" "s1" "https://x.test/a" "20260101" "a" in
  let e2 := mk_rss_entry "t2" "s2" "https://x.test/a" "yesterday" "b" in
  exists it1 it2,
    rss_item (L := compact_runtime) now e1 = Ok it1 /\
    rss_item (L := compact_runtime) now e2 = Ok it2 /\
    deduplicate [it1; it2] = [it1].
Proof.
  intros now e1 e2.
  destruct (parse_date_returns (L := compact_runtime) now
              (entry_published e1)) as [iso1 Hiso1].
  destruct (parse_date_returns (L := compact_runtime) now
              (entry_published e2)) as [iso2 Hiso2].
  destruct (rss_item_of_date (L := compact_runtime) now e1 iso1 Hiso1)
    as (s1 & _ & H1).
  destruct (rss_item_of_date (L := compact_runtime) now e2 iso2 Hiso2)
    as (s2 & _ & H2).
  eexists _, _. split; [exact H1|]. split; [exact H2|].
  exact (rss_same_link_deduplicated (L := compact_runtime)
           now now e1 e2 _ _ H1 H2 eq_refl).
Defined.

(** ** Items built from Hacker News stories and Reddit posts *)

Section SocialItems.
Context {L : Runtime} {T : Timestamps}.

Lemma str_or_nonempty (x : option string) (alt : string) :
  alt <> "" -> str_or x alt <> "".
Proof. intros Halt. by destruct x as [[|a s]|]. Qed.

Lemma default_score_band (source : string) (e c h : R) :
  0 <= e -> 0 <= c ->
  exists s,
    compute_traction_score_default source e c h = Ok s /\
    15 * source_weight source <= s <= 85 + 15 * source_weight source.
Proof.
  intros He Hc.
  unfold compute_traction_score_default, default_engagement_cap,
    default_comments_cap.
  rewrite compute_traction_score_eq by lra. eexists. split; [done|].
  pose proof (norm_nonneg e 5000 He ltac:(lra)).
  pose proof (norm_nonneg c 500 Hc ltac:(lra)).
  pose proof (norm_le_1 e 5000 ltac:(lra) ltac:(lra)).
  pose proof (norm_le_1 c 500 ltac:(lra) ltac:(lra)).
  pose proof (recency_pos h). pose proof (recency_le_1 h).
  split.
  - rewrite <- (round2_weight_floor source) at 1. apply round_mono.
    unfold raw_score. lra.
  - rewrite <- (round2_weight_ceiling source). apply round_mono.
    unfold raw_score. lra.
Qed.

Lemma default_score_negative (source : string) (e c h : R) :
  e <= -1 \/ (-1 < e /\ c <= -1) ->
  compute_traction_score_default source e c h = Raise ValueError.
Proof.
  unfold compute_traction_score_default, default_engagement_cap.
  intros [He|[He Hc]].
  - by apply compute_traction_score_engagement_le_m1.
  - apply compute_traction_score_comments_le_m1; lra.
Qed.

End SocialItems.



(** X19: the loop body of [fetch_hackernews].  An empty response and a story
    whose type is not ["story"], ["ask"] or ["show"] are skipped.  For any
    other story the date conversion comes first and its exception leaves
    the loop; a score or a comment count at or below [-1] makes the body
    raise [ValueError]; with non-negative counts the story yields an item of
    source ["hackernews"] whose url is never empty and whose score lies
    between 15 and 100. *)
Theorem hn_item_behaviour `{L : Runtime} `{T : Timestamps}
    (now : string) (story_id : Z) :
  hn_item now story_id None = Ok None /\
  (forall story,
     story_type story ∉ [Some "story"; Some "ask"; Some "show"] ->
     hn_item now story_id (Some story) = Ok None) /\
  (forall story,
     story_type story ∈ [Some "story"; Some "ask"; Some "show"] ->
     (forall e, timestamp_date now (story_time story) = Raise e ->
                hn_item now story_id (Some story) = Raise e) /\
     (forall iso, timestamp_date now (story_time story) = Ok iso ->
        (story_score story <= -1
         \/ (-1 < story_score story /\ story_descendants story <= -1) ->
         hn_item now story_id (Some story) = Raise ValueError) /\
        (0 <= story_score story -> 0 <= story_descendants story ->
         exists it,
           hn_item now story_id (Some story) = Ok (Some it) /\
           item_source it = "hackernews" /\
           item_id it = Some (make_id "hackernews" (str_int story_id)) /\
           item_date it = iso /\
           get_url it <> "" /\
           15 <= get_score it <= 100))).
Proof.
  split; [done|]. split.
  { intros story Hty. unfold hn_item. by rewrite decide_False. }
  intros story Hty. split.
  { intros e He. unfold hn_item. by rewrite decide_True, He. }
  intros iso Hiso. split.
  - intros Hneg. unfold hn_item. rewrite decide_True, Hiso, bind_Ok by done.
    by rewrite (default_score_negative _ _ _ _ Hneg).
  - intros Hs Hc.
    destruct (default_score_band "hackernews" (story_score story)
                (story_descendants story) (hours_ago iso) Hs Hc)
      as (s & Hscore & Hband).
    assert (source_weight "hackernews" = 1.0) as Hw by reflexivity.
    rewrite Hw in Hband.
    eexists. unfold hn_item.
    rewrite decide_True, Hiso, bind_Ok, Hscore, bind_Ok by done.
    split; [reflexivity|]. simpl. unfold get_url, get_score. simpl.
    split; [done|]. split; [done|]. split; [done|]. split; [|lra].
    apply str_or_nonempty. discriminate.
Qed.

Lemma hn_item_behaviour_witness :
  let job :=
    mk_hn_story (Some "job") "hiring" None 1 0 "pg" 0 "" in
  hn_item (L := compact_runtime) (T := small_timestamps)
    "2026-11-03T12:00:00+00:00" 42 (Some job) = Ok None.
Proof.
  intros job.
  destruct (hn_item_behaviour (L := compact_runtime) (T := small_timestamps)
              "2026-11-03T12:00:00+00:00" 42) as (_ & Hskip & _).
  apply Hskip. intros Hin.
  repeat (apply elem_of_cons in Hin as [Hin|Hin]; [discriminate|]).
  by apply elem_of_nil in Hin.
Defined.

Example hn_item_fallback_url :
  let ask := mk_hn_story (Some "story") "Ask HN" None 10 3 "pg" 0 "" in
  exists it,
    hn_item (L := compact_runtime) (T := small_timestamps)
      "2026-11-03T12:00:00+00:00" 42 (Some ask) = Ok (Some it) /\
    item_url it = Some "https://news.ycombinator.com/item?id=42".
Proof.
  intros ask.
  destruct (default_score_band "hackernews" 10 3 24.0 ltac:(lra) ltac:(lra))
    as (s & Hs & _).
  eexists. unfold hn_item. rewrite decide_True by (subst ask; simpl; set_solver).
  assert (timestamp_date (T := small_timestamps)
            "2026-11-03T12:00:00+00:00" (story_time ask)
          = Ok "2026-11-03T12:00:00+00:00") as ->.
  { unfold timestamp_date. by rewrite decide_True. }
  rewrite bind_Ok. subst ask. simpl. rewrite Hs, bind_Ok.
  split; reflexivity.
Qed.
